(** * Ignition-circuit analysis scripts: device models, drive solver, continuity form

    Shallow embedding of [sim/ignition.py] and [sim/diode.py].

    Python floats are idealised as real numbers: every arithmetic operation
    is the exact one, comparisons are the real comparisons, and rounding,
    overflow, infinities and NaN are outside the model.  What is kept of the
    run-time behaviour is the set of exceptions the arithmetic can raise:
    [math.log] and [math.sqrt] raise [ValueError] outside their domain, and a
    division raises [ZeroDivisionError] on a zero divisor (a NumPy scalar
    would give [inf] or [nan] with a warning instead; the sweep never
    divides by zero, see [body_keeps_above_ground]). *)

From Stdlib Require Import Reals ZArith Lra Lia List Arith Sorted.
Import ListNotations.

Local Open Scope R_scope.

(** ** Exceptions and results *)

Inductive exn : Set :=
| ZeroDivisionError
| ValueError          (* "math domain error" of math.log / math.sqrt *)
| NameError.          (* a name read before it was ever bound *)

Inductive res (A : Type) : Type :=
| Ok (a : A)
| Raise (e : exn).

Arguments Ok {A} a.
Arguments Raise {A} e.

Definition bind {A B : Type} (m : res A) (k : A -> res B) : res B :=
  match m with
  | Ok a => k a
  | Raise e => Raise e
  end.

Notation "x <- m ;; k" := (bind m (fun x => k))
  (at level 61, m at next level, right associativity).

(** [a / b] of Python. *)
Definition py_div (a b : R) : res R :=
  if Req_dec_T b 0 then Raise ZeroDivisionError else Ok (a / b).

(** [math.log]. *)
Definition math_log (x : R) : res R :=
  if Rle_dec x 0 then Raise ValueError else Ok (ln x).

(** [math.sqrt]. *)
Definition math_sqrt (x : R) : res R :=
  if Rlt_dec x 0 then Raise ValueError else Ok (sqrt x).

(** [math.exp]; total on the reals. *)
Definition math_exp (x : R) : R := exp x.

(** ** Globals of ignition.py *)

Definition ERROR_THRESHOLD : R := 0.01.
Definition MAX_ITERATIONS : nat := 1000.

(** ** class NMOS *)

Record NMOS : Set := mkNMOS { kn : R; Vt : R }.

Definition calc_drain_current (self : NMOS) (Vg Vd Vs : R) : R :=
  let Vov := Vg - Vs - Vt self in
  if Rlt_dec Vov 0 then 0
  else if Rlt_dec Vov (Vd - Vs) then 0.5 * kn self * Vov ^ 2
  else kn self * (Vov * (Vd - Vs) - 0.5 * (Vd - Vs) ^ 2).

Definition calc_drain_current_sat (self : NMOS) (Vg Vs : R) : R :=
  0.5 * kn self * (Vg - Vs - Vt self) ^ 2.

(** ** class Diode *)

Record Diode : Set := mkDiode { I0 : R; alpha : R }.

Definition calc_current (self : Diode) (VF : R) : R :=
  I0 self * (math_exp (alpha self * VF) - 1).

Definition calc_currents (self : Diode) (VF : list R) : list R :=
  map (calc_current self) VF.

(** Forward voltage drop. *)
Definition calc_voltage (self : Diode) (I : R) : res R :=
  q <- py_div I (I0 self) ;;
  l <- math_log (q + 1) ;;
  py_div l (alpha self).

(** ** diode.py *)

Definition diode_equation (V : list R) (alpha I0 : R) : list R :=
  map (fun voltage => I0 * (math_exp (alpha * voltage) - 1)) V.

(** ** Calculations of ignition.py *)

(** Setup devices. *)
Definition mux_diode : Diode := mkDiode 0.004197 13.28.
Definition drive_nmos : NMOS := mkNMOS 4.2 1.0.
Definition cont_nmos : NMOS := mkNMOS 0.159 1.5.
Definition Rp : R := 1.          (* Parasitic resistance, Ohm *)
Definition Rcont : R := 10000.   (* Continuity pull-up resistor *)

(** [np.linspace( start, stop, num )], end point included. *)
Definition linspace (start stop : R) (num : nat) : list R :=
  map (fun i => start + INR i * ((stop - start) / INR (num - 1))) (seq 0 num).

(** Range of input voltages. *)
Definition input_voltages : list R := linspace 3.7 (3.7 * 4) 100.

(** *** Solve for the drive voltage *)

(** The names the solver assigns.  [diode_VF] and [Vd] are bound for the
    first time inside the while loop and, being module-level names, keep
    their value from one sweep point to the next. *)
Record solver_state : Set := mkState {
  error : R;
  current_actual : R;      (* Calculated current *)
  current_guess : R;       (* Next current guess to evaluate *)
  num_iter : nat;          (* Iteration Number *)
  diode_VF : option R;
  Vd : option R
}.

(** Step size control for stability. *)
Definition learn_rate : R := 0.01.

(** Setup iterative solver parameters. *)
Definition solver_setup (st : solver_state) : solver_state :=
  mkState 100 0.1 0.1 0 (diode_VF st) (Vd st).

(** The state of the script before the sweep: nothing of the solver is bound
    yet; the four numeric fields are overwritten by [solver_setup] before
    they are read. *)
Definition unbound : solver_state := mkState 0 0 0 0 None None.

(** The guard of the while loop. *)
Definition solver_guard (st : solver_state) : bool :=
  if Rge_dec (error st) ERROR_THRESHOLD
  then Nat.ltb (num_iter st) MAX_ITERATIONS
  else false.

(** One pass through the body of the while loop. *)
Definition solver_body (voltage : R) (st : solver_state) : res solver_state :=
  diode_VF' <- calc_voltage mux_diode (current_guess st) ;;
  let Vd' := voltage - diode_VF' - current_guess st * Rp in
  let current_actual' := calc_drain_current drive_nmos 3.3 Vd' 0 in
  error' <- py_div (Rabs (current_actual' - current_guess st)) current_actual' ;;
  let current_guess' :=
    current_guess st + learn_rate * (current_actual' - current_guess st) in
  Ok (mkState error' current_actual' current_guess' (S (num_iter st))
              (Some diode_VF') (Some Vd')).

(** The while loop.  [None] is the loop still running when the fuel is
    spent; an exception of the body leaves the loop at once. *)
Fixpoint solver_loop (fuel : nat) (voltage : R) (st : solver_state)
  : option (res solver_state) :=
  if solver_guard st then
    match fuel with
    | O => None
    | S fuel' =>
        match solver_body voltage st with
        | Ok st' => solver_loop fuel' voltage st'
        | Raise e => Some (Raise e)
        end
    end
  else Some (Ok st).

(** What is printed after the loop. *)
Inductive report : Set :=
| SolverFailedToConverge
| SolutionConvergedIn (iterations : nat).

Definition solver_report (st : solver_state) : report :=
  if Nat.eqb (num_iter st) MAX_ITERATIONS
  then SolverFailedToConverge
  else SolutionConvergedIn (num_iter st).

(** Reading a name that may not be bound yet. *)
Definition lookup (x : option R) : res R :=
  match x with
  | Some v => Ok v
  | None => Raise NameError
  end.

(** One entry of the result arrays, with the line printed for it. *)
Record drive_point : Set := mkPoint {
  printed : report;
  drive_Vds : R;
  drive_currents : R;
  diode_VFs : R
}.

(** Record results. *)
Definition record_results (st : solver_state) : res drive_point :=
  vd <- lookup (Vd st) ;;
  vf <- lookup (diode_VF st) ;;
  Ok (mkPoint (solver_report st) vd (current_guess st) vf).

(** One sweep point: setup, solver, report, record. *)
Definition solve_point (fuel : nat) (voltage : R) (st : solver_state)
  : option (res (solver_state * drive_point)) :=
  match solver_loop fuel voltage (solver_setup st) with
  | None => None
  | Some (Raise e) => Some (Raise e)
  | Some (Ok st') =>
      Some (p <- record_results st' ;; Ok (st', p))
  end.

(** The for loop over the input voltages; an exception ends the script. *)
Fixpoint drive_sweep (fuel : nat) (voltages : list R) (st : solver_state)
  : option (res (list drive_point)) :=
  match voltages with
  | [] => Some (Ok [])
  | voltage :: rest =>
      match solve_point fuel voltage st with
      | None => None
      | Some (Raise e) => Some (Raise e)
      | Some (Ok (st', p)) =>
          match drive_sweep fuel rest st' with
          | Some (Ok ps) => Some (Ok (p :: ps))
          | other => other
          end
      end
  end.

(** *** Solve for the continuity signal *)

Inductive cont_branch : Set :=
| QuadraticRoot      (* the branch under [if ( Vov > Vcont )] *)
| LinearPullup.      (* the else branch *)

(** The body of the second for loop, for a continuity transistor [nmos] and
    a pull-up resistor [Rpull]. *)
Section Continuity.

Variable nmos : NMOS.
Variable Rpull : R.

Definition cont_Vov (voltage : R) : R := voltage - Vt nmos.

Definition cont_current (voltage : R) : R :=
  if Rlt_dec (cont_Vov voltage) 0 then 0
  else calc_drain_current_sat nmos voltage 0.

Definition cont_Vcont (voltage : R) : R :=
  3.3 - cont_current voltage * Rpull.

(** Which side of [if ( Vov > Vcont )] runs. *)
Definition cont_select (voltage : R) : cont_branch :=
  if Rgt_dec (cont_Vov voltage) (cont_Vcont voltage)
  then QuadraticRoot else LinearPullup.

Definition cont_b (voltage : R) : res R :=
  t <- py_div 1 (kn nmos * Rpull) ;;
  Ok (cont_Vov voltage + t).

Definition cont_c : res R := py_div (2 * 3.3) (kn nmos * Rpull).

(** The branch under [if ( Vov > Vcont )]. *)
Definition cont_quadratic (voltage : R) : res R :=
  b <- cont_b voltage ;;
  c <- cont_c ;;
  r <- math_sqrt (b ^ 2 - c) ;;
  Ok (b - r).

(** The value stored in [cont_voltages[i]]. *)
Definition cont_voltage (voltage : R) : res R :=
  match cont_select voltage with
  | QuadraticRoot => cont_quadratic voltage
  | LinearPullup => Ok (cont_Vcont voltage)
  end.

End Continuity.

Fixpoint cont_sweep (voltages : list R) : res (list R) :=
  match voltages with
  | [] => Ok []
  | voltage :: rest =>
      v <- cont_voltage cont_nmos Rcont voltage ;;
      vs <- cont_sweep rest ;;
      Ok (v :: vs)
  end.

(** ** NMOS.calc_drain_currents *)

(** The loop [for i, voltage in enumerate( Vg )]: [rest] is what of [Vg] is
    still to be enumerated and [i] the index reached; the three sequences are
    read at index [i].  [None] is the [IndexError] of a sequence too short. *)
Fixpoint drain_currents_loop (self : NMOS) (Vg Vd Vs : list R)
         (i : nat) (rest : list R) : option (list R) :=
  match rest with
  | [] => Some []
  | _ :: rest' =>
      match nth_error Vg i, nth_error Vd i, nth_error Vs i with
      | Some g, Some d, Some s =>
          option_map (cons (calc_drain_current self g d s))
                     (drain_currents_loop self Vg Vd Vs (S i) rest')
      | _, _, _ => None
      end
  end.

Definition calc_drain_currents (self : NMOS) (Vg Vd Vs : list R)
  : option (list R) :=
  drain_currents_loop self Vg Vd Vs 0 Vg.

(** ** Vocabulary of the statements about the solver *)

(** The forward drop of the mux diode at a current above [-I0], and the
    drain current of the drive transistor at gate 3.3 V and source 0 V. *)
Definition mux_drop (I : R) : R :=
  ln (I / I0 mux_diode + 1) / alpha mux_diode.

Definition drive_current (Vd : R) : R :=
  calc_drain_current drive_nmos 3.3 Vd 0.

(** The state one pass of the loop body leaves, when nothing is raised. *)
Definition next_state (voltage : R) (st : solver_state) : solver_state :=
  let vf := mux_drop (current_guess st) in
  let vd := voltage - vf - current_guess st * Rp in
  let a := drive_current vd in
  mkState (Rabs (a - current_guess st) / a) a
          (current_guess st + learn_rate * (a - current_guess st))
          (S (num_iter st)) (Some vf) (Some vd).

(** The states the solver goes through at one battery voltage: the one the
    setup leaves, and every state a pass of the body leaves after the guard
    let it run. *)
Inductive reachable (voltage : R) : solver_state -> Prop :=
| reach_setup (st0 : solver_state) :
    reachable voltage (solver_setup st0)
| reach_body (st st' : solver_state) :
    reachable voltage st ->
    solver_guard st = true ->
    solver_body voltage st = Ok st' ->
    reachable voltage st'.

(** The guess stays clear of the singularity of the logarithm and leaves the
    drain of the drive transistor above ground. *)
Definition drain_above_ground (voltage : R) (st : solver_state) : Prop :=
  0.004 <= current_guess st
  /\ current_guess st + mux_drop (current_guess st) < voltage.

(** The guess is at least its starting value and not above the current the
    next pass will compute from it, the drain is above ground, and the gap
    between that current and the guess has shrunk by 0.99 per pass. *)
Definition rising (voltage : R) (st : solver_state) : Prop :=
  let g := current_guess st in
  let vd := voltage - mux_drop g - g * Rp in
  0.1 <= g
  /\ 0 < vd
  /\ g <= drive_current vd
  /\ drive_current vd - g <= 11.009 * 0.99 ^ num_iter st
  /\ ((0 < num_iter st)%nat ->
      0 <= error st <= 110.09 * 0.99 ^ (num_iter st - 1)).

(** The drive transistor stays in its quadratic region and the guess follows
    the closed form of the damped step towards 11.109 A. *)
Definition saturated (voltage : R) (st : solver_state) : Prop :=
  current_guess st = 11.109 - 11.009 * 0.99 ^ num_iter st
  /\ ((0 < num_iter st)%nat ->
      current_actual st = 11.109
      /\ error st = 11.009 * 0.99 ^ (num_iter st - 1) / 11.109).

(** What a converged sweep point records at battery voltage [v]: the
    report with its pass count, and the diode drop, drain voltage and updated
    guess of the last pass, which started from the guess [g]. *)
Definition converged_record (v : R) (p : drive_point) : Prop :=
  exists (n : nat) (g : R),
    printed p = SolutionConvergedIn n
    /\ (1 <= n <= 951)%nat
    /\ 0.1 <= g
    /\ diode_VFs p = mux_drop g
    /\ drive_Vds p = v - diode_VFs p - g * Rp
    /\ drive_currents p = g + learn_rate * (drive_current (drive_Vds p) - g)
    /\ 0 < diode_VFs p
    /\ 0 < drive_Vds p
    /\ g <= drive_currents p <= 11.109.

(** ** Fixed-point enclosures of the exponential *)

(** Numbers with 18 decimal places, held as integers; squaring rounds down
    or up.  They bound [exp] from [exp (2*y) = exp y * exp y]. *)
Definition fx_scale : Z := 10 ^ 18.

Definition fx (m : Z) : R := IZR m / IZR fx_scale.

Fixpoint fx_square_down (n : nat) (m : Z) : Z :=
  match n with
  | O => m
  | S n' => fx_square_down n' (m * m / fx_scale)
  end.

Fixpoint fx_square_up (n : nat) (m : Z) : Z :=
  match n with
  | O => m
  | S n' => fx_square_up n' (m * m / fx_scale + 1)
  end.

(** * Properties *)

(** Decimal literals as quotients of integers, for [ring] and [field]. *)
Ltac decimals :=
  unfold Q2R in *;
  cbn [QArith_base.Qnum QArith_base.Qden] in *.

(** ** Partial arithmetic *)

Lemma py_div_ok (a b : R) : b <> 0 -> py_div a b = Ok (a / b).
Proof.
  intros Hb. unfold py_div. destruct (Req_dec_T b 0) as [E|_]; [contradiction|reflexivity].
Qed.

Lemma py_div_zero (a : R) : py_div a 0 = Raise ZeroDivisionError.
Proof.
  unfold py_div. destruct (Req_dec_T 0 0) as [_|N]; [reflexivity|now elim N].
Qed.

Lemma math_log_ok (x : R) : 0 < x -> math_log x = Ok (ln x).
Proof.
  intros Hx. unfold math_log. destruct (Rle_dec x 0) as [L|_]; [lra|reflexivity].
Qed.

Lemma math_log_domain (x : R) : x <= 0 -> math_log x = Raise ValueError.
Proof.
  intros Hx. unfold math_log. destruct (Rle_dec x 0) as [_|N]; [reflexivity|lra].
Qed.

Lemma math_sqrt_ok (x : R) : 0 <= x -> math_sqrt x = Ok (sqrt x).
Proof.
  intros Hx. unfold math_sqrt. destruct (Rlt_dec x 0) as [L|_]; [lra|reflexivity].
Qed.

Lemma math_sqrt_domain (x : R) : x < 0 -> math_sqrt x = Raise ValueError.
Proof.
  intros Hx. unfold math_sqrt. destruct (Rlt_dec x 0) as [_|N]; [reflexivity|lra].
Qed.

(** ** NMOS device model *)

Section NMOSFacts.

Variable self : NMOS.
Variables Vg Vd Vs : R.

Let Vov := Vg - Vs - Vt self.
Let Vds := Vd - Vs.

Lemma drain_current_cutoff :
  Vov < 0 -> calc_drain_current self Vg Vd Vs = 0.
Proof.
  intros H. unfold calc_drain_current. fold Vov.
  destruct (Rlt_dec Vov 0); [reflexivity|contradiction].
Qed.

Lemma drain_current_quadratic :
  0 <= Vov -> Vov < Vds ->
  calc_drain_current self Vg Vd Vs = 0.5 * kn self * Vov ^ 2.
Proof.
  intros H0 H1. unfold calc_drain_current. fold Vov Vds.
  destruct (Rlt_dec Vov 0); [lra|].
  destruct (Rlt_dec Vov Vds); [reflexivity|contradiction].
Qed.

Lemma drain_current_complementary :
  0 <= Vov -> Vds <= Vov ->
  calc_drain_current self Vg Vd Vs
  = kn self * (Vov * Vds - 0.5 * Vds ^ 2).
Proof.
  intros H0 H1. unfold calc_drain_current. fold Vov Vds.
  destruct (Rlt_dec Vov 0); [lra|].
  destruct (Rlt_dec Vov Vds); [lra|reflexivity].
Qed.

(** Away from cutoff the drain current is the quadratic value less a
    square of the distance below the boundary. *)
Lemma drain_current_closed_form :
  0 <= Vov ->
  calc_drain_current self Vg Vd Vs
  = 0.5 * kn self * Vov ^ 2 - 0.5 * kn self * (Rmax 0 (Vov - Vds)) ^ 2.
Proof.
  intros H0. destruct (Rlt_dec Vov Vds) as [L|L].
  - rewrite drain_current_quadratic by assumption.
    rewrite Rmax_left by lra. clearbody Vov Vds. decimals; ring.
  - rewrite drain_current_complementary by lra.
    rewrite Rmax_right by lra. clearbody Vov Vds. decimals; field.
Qed.

End NMOSFacts.

Lemma Rmax_0_abs (x : R) : Rmax 0 x = (x + Rabs x) / 2.
Proof.
  unfold Rmax, Rabs. destruct (Rle_dec 0 x), (Rcase_abs x); lra.
Qed.

(** As a function of the drain voltage the drain current has no jump
    anywhere: constant in cutoff, and otherwise the closed form above. *)
Lemma drain_current_continuous (self : NMOS) (Vg Vs : R) :
  continuity (fun d => calc_drain_current self Vg d Vs).
Proof.
  intros d0. destruct (Rlt_dec (Vg - Vs - Vt self) 0) as [C|C].
  - apply continuity_pt_locally_ext with (f := fun _ => 0) (a := 1); [lra| |reg].
    intros y _. symmetry. now apply drain_current_cutoff.
  - assert (H : 0 <= Vg - Vs - Vt self) by lra.
    remember (Vg - Vs - Vt self) as w eqn:Ew.
    apply continuity_pt_locally_ext
      with (a := 1)
           (f := fun d => 0.5 * kn self * w ^ 2
                          - 0.5 * kn self
                            * ((((w - (d - Vs)) + Rabs (w - (d - Vs))) / 2)
                               * (((w - (d - Vs)) + Rabs (w - (d - Vs))) / 2)));
      [lra| |reg].
    intros y _. rewrite drain_current_closed_form by (rewrite <- Ew; exact H).
    rewrite <- Ew, Rmax_0_abs. simpl. now rewrite !Rmult_1_r.
Qed.

(** C3.  In cutoff, that is when the overdrive voltage [Vg - Vs - Vt] is
    strictly negative, [NMOS.calc_drain_current] returns exactly 0, whatever
    [kn], [Vt] and the drain voltage are. *)
Theorem nmos_cutoff_current_is_zero (self : NMOS) (Vg Vd Vs : R) :
  Vg - Vs - Vt self < 0 ->
  calc_drain_current self Vg Vd Vs = 0.
Proof.
  apply drain_current_cutoff.
Qed.

Lemma nmos_cutoff_current_is_zero_witness :
  0.5 - 0 - Vt drive_nmos < 0
  /\ calc_drain_current drive_nmos 0.5 12 0 = 0.
Proof.
  assert (H : 0.5 - 0 - Vt drive_nmos < 0) by (simpl; lra).
  split; [exact H|].
  exact (nmos_cutoff_current_is_zero drive_nmos 0.5 12 0 H).
Defined.

(** C7.  On the boundary [Vov = Vds] between the two conducting regions
    the two branch formulas of [NMOS.calc_drain_current] give the same
    number, the value returned there is that number, and the drain current
    is continuous in the drain voltage at the boundary. *)
Theorem nmos_branches_agree_at_boundary (self : NMOS) (Vg Vd Vs : R) :
  Vg - Vs - Vt self = Vd - Vs ->
  0.5 * kn self * (Vg - Vs - Vt self) ^ 2
  = kn self * ((Vg - Vs - Vt self) * (Vd - Vs) - 0.5 * (Vd - Vs) ^ 2)
  /\ (0 <= Vg - Vs - Vt self ->
      calc_drain_current self Vg Vd Vs
      = 0.5 * kn self * (Vg - Vs - Vt self) ^ 2)
  /\ continuity_pt (fun d => calc_drain_current self Vg d Vs) Vd.
Proof.
  intros E. split; [|split].
  - rewrite <- E. decimals. field.
  - intros H. rewrite drain_current_complementary by lra.
    rewrite <- E. decimals. field.
  - apply drain_current_continuous.
Qed.

Lemma nmos_branches_agree_at_boundary_witness :
  3.3 - 0 - Vt drive_nmos = 2.3 - 0
  /\ calc_drain_current drive_nmos 3.3 2.3 0
     = 0.5 * kn drive_nmos * (3.3 - 0 - Vt drive_nmos) ^ 2.
Proof.
  assert (E : 3.3 - 0 - Vt drive_nmos = 2.3 - 0) by (simpl; lra).
  split; [exact E|].
  apply (nmos_branches_agree_at_boundary drive_nmos 3.3 2.3 0 E).
  simpl; lra.
Defined.

(** ** Diode device model *)

Section DiodeFacts.

Variable self : Diode.
Hypothesis I0_pos : 0 < I0 self.
Hypothesis alpha_pos : 0 < alpha self.

(** The argument handed to [math.log] is positive exactly above [-I0]. *)
Lemma log_argument_sign (I : R) :
  (I / I0 self + 1 <= 0 <-> I <= - I0 self)
  /\ (0 < I / I0 self + 1 <-> - I0 self < I).
Proof.
  assert (E : I / I0 self + 1 = (I + I0 self) / I0 self) by (field; lra).
  rewrite E. split; split; intros H.
  - destruct (Rle_or_lt I (- I0 self)) as [L|L]; [exact L|exfalso].
    assert (0 < (I + I0 self) / I0 self)
      by (apply Rdiv_lt_0_compat; lra).
    lra.
  - apply Rmult_le_reg_r with (I0 self); [exact I0_pos|].
    unfold Rdiv. rewrite Rmult_assoc, Rinv_l by lra. lra.
  - destruct (Rle_or_lt I (- I0 self)) as [L|L]; [exfalso|exact L].
    assert ((I + I0 self) / I0 self * I0 self <= 0 * I0 self).
    { unfold Rdiv. rewrite Rmult_assoc, Rinv_l by lra. lra. }
    apply Rmult_le_reg_r in H0; lra.
  - apply Rdiv_lt_0_compat; lra.
Qed.

Lemma calc_voltage_defined (I : R) :
  - I0 self < I ->
  calc_voltage self I = Ok (ln (I / I0 self + 1) / alpha self).
Proof.
  intros H. unfold calc_voltage.
  rewrite py_div_ok by lra. cbn [bind].
  rewrite math_log_ok by (apply log_argument_sign; exact H). cbn [bind].
  apply py_div_ok. lra.
Qed.

Lemma calc_voltage_domain_error (I : R) :
  I <= - I0 self ->
  calc_voltage self I = Raise ValueError.
Proof.
  intros H. unfold calc_voltage.
  rewrite py_div_ok by lra. cbn [bind].
  rewrite math_log_domain by (apply log_argument_sign; exact H).
  reflexivity.
Qed.

Lemma calc_current_of_voltage (I : R) :
  - I0 self < I ->
  calc_current self (ln (I / I0 self + 1) / alpha self) = I.
Proof.
  intros H. unfold calc_current, math_exp.
  replace (alpha self * (ln (I / I0 self + 1) / alpha self))
    with (ln (I / I0 self + 1)) by (field; lra).
  rewrite exp_ln by (apply log_argument_sign; exact H).
  field. lra.
Qed.

Lemma calc_current_increasing (V1 V2 : R) :
  V1 < V2 -> calc_current self V1 < calc_current self V2.
Proof.
  intros H. unfold calc_current, math_exp.
  apply Rmult_lt_compat_l; [exact I0_pos|].
  apply Rplus_lt_compat_r, exp_increasing.
  apply Rmult_lt_compat_l; assumption.
Qed.

End DiodeFacts.

(** The curve-fit model of diode.py is the device model of ignition.py,
    entry by entry. *)
Lemma diode_equation_calc_currents (V : list R) (a i0 : R) :
  diode_equation V a i0 = calc_currents (mkDiode i0 a) V.
Proof.
  reflexivity.
Qed.

(** C2.  For [I0 > 0], [alpha > 0] and every current [I > -I0], the inverse
    mapping is defined and the forward mapping takes its result back to [I]:
    [calc_current (calc_voltage I) = I], exactly, over the reals. *)
Theorem diode_round_trip (self : Diode) (I : R) :
  0 < I0 self -> 0 < alpha self -> - I0 self < I ->
  exists VF, calc_voltage self I = Ok VF /\ calc_current self VF = I.
Proof.
  intros Hi Ha H. exists (ln (I / I0 self + 1) / alpha self). split.
  - now apply calc_voltage_defined.
  - now apply calc_current_of_voltage.
Qed.

Lemma diode_round_trip_witness :
  exists VF, calc_voltage mux_diode 0.1 = Ok VF /\ calc_current mux_diode VF = 0.1.
Proof.
  apply (diode_round_trip mux_diode 0.1); simpl; lra.
Defined.

(** C8.  For [I0 > 0] and [alpha > 0] the diode current
    [I0*(exp(alpha*V) - 1)] is strictly increasing in the voltage, both as
    [Diode.calc_current] and entry by entry in the array [diode_equation]
    returns. *)
Theorem diode_current_strictly_increasing (self : Diode) (V1 V2 : R) :
  0 < I0 self -> 0 < alpha self -> V1 < V2 ->
  calc_current self V1 < calc_current self V2
  /\ (forall (V : list R) (i j : nat),
         nth_error V i = Some V1 -> nth_error V j = Some V2 ->
         exists c1 c2,
           nth_error (diode_equation V (alpha self) (I0 self)) i = Some c1
           /\ nth_error (diode_equation V (alpha self) (I0 self)) j = Some c2
           /\ c1 < c2).
Proof.
  intros Hi Ha H.
  assert (M : calc_current self V1 < calc_current self V2)
    by now apply calc_current_increasing.
  split; [exact M|].
  intros V i j E1 E2.
  exists (calc_current self V1), (calc_current self V2).
  unfold diode_equation.
  rewrite (map_nth_error _ _ _ E1), (map_nth_error _ _ _ E2).
  repeat split; try reflexivity. exact M.
Qed.

Lemma diode_current_strictly_increasing_witness :
  calc_current mux_diode 0.14 < calc_current mux_diode 0.2.
Proof.
  apply (diode_current_strictly_increasing mux_diode 0.14 0.2); simpl; lra.
Defined.

(** C5, as the code has it.  For [I0 > 0] and [alpha > 0],
    [Diode.calc_voltage I] returns [ln(I/I0 + 1)/alpha] for every
    [I > -I0], and raises the domain error of the logarithm exactly when
    [I/I0 + 1 <= 0], that is exactly when [I <= -I0]; it is the currents
    strictly above [-I0] whose logarithm argument is positive. *)
Theorem diode_voltage_domain (self : Diode) (I : R) :
  0 < I0 self -> 0 < alpha self ->
  (I / I0 self + 1 <= 0 <-> I <= - I0 self)
  /\ (calc_voltage self I = Raise ValueError <-> I <= - I0 self)
  /\ (- I0 self < I ->
      0 < I / I0 self + 1
      /\ calc_voltage self I = Ok (ln (I / I0 self + 1) / alpha self)).
Proof.
  intros Hi Ha. split; [|split].
  - now apply log_argument_sign.
  - split; intros H.
    + destruct (Rle_or_lt I (- I0 self)) as [L|L]; [exact L|].
      rewrite calc_voltage_defined in H by assumption. discriminate.
    + now apply calc_voltage_domain_error.
  - intros H. split.
    + now apply log_argument_sign.
    + now apply calc_voltage_defined.
Qed.

Lemma diode_voltage_domain_witness :
  calc_voltage mux_diode (-1) = Raise ValueError <-> -1 <= - I0 mux_diode.
Proof.
  apply (diode_voltage_domain mux_diode (-1)); simpl; lra.
Defined.

(** C5, the boundary.  The current [I = -I0] satisfies [I >= -I0], yet the
    logarithm argument [I/I0 + 1] is 0 there and [Diode.calc_voltage]
    raises the domain error. *)
Lemma diode_voltage_fails_at_minus_I0 :
  0 < I0 mux_diode /\ 0 < alpha mux_diode
  /\ -0.004197 >= - I0 mux_diode
  /\ -0.004197 / I0 mux_diode + 1 <= 0
  /\ calc_voltage mux_diode (-0.004197) = Raise ValueError.
Proof.
  assert (Hi : 0 < I0 mux_diode) by (simpl; lra).
  assert (Ha : 0 < alpha mux_diode) by (simpl; lra).
  assert (L : -0.004197 <= - I0 mux_diode) by (simpl; lra).
  repeat split; try assumption.
  - simpl; lra.
  - now apply log_argument_sign.
  - now apply calc_voltage_domain_error.
Qed.

(** ** Continuity-voltage closed form *)

Section ContinuityFacts.

Variable nmos : NMOS.
Variable Rpull : R.

Lemma cont_select_quadratic (voltage : R) :
  cont_select nmos Rpull voltage = QuadraticRoot
  <-> cont_Vov nmos voltage > cont_Vcont nmos Rpull voltage.
Proof.
  unfold cont_select.
  destruct (Rgt_dec (cont_Vov nmos voltage) (cont_Vcont nmos Rpull voltage));
    split; intros H; try assumption; try reflexivity; try discriminate.
  contradiction.
Qed.

Lemma cont_select_linear (voltage : R) :
  cont_select nmos Rpull voltage = LinearPullup
  <-> cont_Vov nmos voltage <= cont_Vcont nmos Rpull voltage.
Proof.
  unfold cont_select.
  destruct (Rgt_dec (cont_Vov nmos voltage) (cont_Vcont nmos Rpull voltage));
    split; intros H; try reflexivity; try discriminate; lra.
Qed.

(** Below threshold the pull-up value is the full 3.3 V, above the
    overdrive voltage: the quadratic branch needs [0 <= Vov]. *)
Lemma cont_quadratic_not_cutoff (voltage : R) :
  cont_Vov nmos voltage > cont_Vcont nmos Rpull voltage ->
  0 <= cont_Vov nmos voltage
  /\ cont_current nmos voltage = 0.5 * kn nmos * cont_Vov nmos voltage ^ 2.
Proof.
  unfold cont_Vcont, cont_current.
  destruct (Rlt_dec (cont_Vov nmos voltage) 0) as [L|L]; intros H.
  - exfalso. lra.
  - split; [lra|]. unfold calc_drain_current_sat, cont_Vov.
    replace (voltage - 0 - Vt nmos) with (voltage - Vt nmos) by ring.
    reflexivity.
Qed.

Hypothesis kn_pos : 0 < kn nmos.
Hypothesis Rpull_pos : 0 < Rpull.

Lemma cont_b_ok (voltage : R) :
  cont_b nmos Rpull voltage
  = Ok (cont_Vov nmos voltage + 1 / (kn nmos * Rpull)).
Proof.
  unfold cont_b. rewrite py_div_ok; [reflexivity|].
  apply Rgt_not_eq, Rmult_lt_0_compat; assumption.
Qed.

Lemma cont_c_ok : cont_c nmos Rpull = Ok (2 * 3.3 / (kn nmos * Rpull)).
Proof.
  unfold cont_c. apply py_div_ok.
  apply Rgt_not_eq, Rmult_lt_0_compat; assumption.
Qed.

(** With [t = 1/(kn*Rpull)], the guard [Vov > 3.3 - 0.5*kn*Vov^2*Rpull]
    reads [Vov^2 + 2*t*Vov > 6.6*t], which leaves [b^2 - c > t^2]. *)
Lemma radicand_lower_bound (voltage : R) :
  cont_Vov nmos voltage > cont_Vcont nmos Rpull voltage ->
  (1 / (kn nmos * Rpull)) ^ 2
  < (cont_Vov nmos voltage + 1 / (kn nmos * Rpull)) ^ 2
    - 2 * 3.3 / (kn nmos * Rpull).
Proof.
  intros H. destruct (cont_quadratic_not_cutoff voltage H) as [Hov Hc].
  unfold cont_Vcont in H. rewrite Hc in H.
  set (x := cont_Vov nmos voltage) in *.
  assert (P : 0 < kn nmos * Rpull) by (apply Rmult_lt_0_compat; assumption).
  set (t := 1 / (kn nmos * Rpull)).
  assert (Ht : 0 < t) by (apply Rdiv_lt_0_compat; lra).
  assert (E : kn nmos * Rpull * t = 1) by (unfold t; field; lra).
  replace (2 * 3.3 / (kn nmos * Rpull)) with (6.6 * t)
    by (unfold t; decimals; field; lra).
  assert (G : 6.6 * t < x ^ 2 + 2 * t * x).
  { assert (G0 : (3.3 - 0.5 * kn nmos * x ^ 2 * Rpull) * (2 * t) < x * (2 * t))
      by (apply Rmult_lt_compat_r; lra).
    replace ((3.3 - 0.5 * kn nmos * x ^ 2 * Rpull) * (2 * t))
      with (6.6 * t - x ^ 2 * (kn nmos * Rpull * t)) in G0
      by (decimals; field).
    rewrite E in G0. lra. }
  replace ((x + t) ^ 2) with (x ^ 2 + 2 * t * x + t ^ 2) by ring.
  lra.
Qed.

(** At the exact boundary [Vov = Vcont] the lower root of the quadratic
    is [Vcont] itself: the two branches store the same number there, so
    which branch ran cannot be read off the stored value. *)
Lemma cont_root_at_boundary (voltage : R) :
  0 <= cont_Vov nmos voltage ->
  cont_Vov nmos voltage = cont_Vcont nmos Rpull voltage ->
  cont_quadratic nmos Rpull voltage = Ok (cont_Vcont nmos Rpull voltage).
Proof.
  intros Hov Hb.
  assert (Hc : cont_current nmos voltage
               = 0.5 * kn nmos * cont_Vov nmos voltage ^ 2).
  { unfold cont_current.
    destruct (Rlt_dec (cont_Vov nmos voltage) 0) as [L|L]; [lra|].
    unfold calc_drain_current_sat, cont_Vov.
    replace (voltage - 0 - Vt nmos) with (voltage - Vt nmos) by ring.
    reflexivity. }
  unfold cont_quadratic. rewrite cont_b_ok, cont_c_ok. cbn [bind].
  rewrite <- Hb. unfold cont_Vcont in Hb. rewrite Hc in Hb.
  set (x := cont_Vov nmos voltage) in *.
  assert (P : 0 < kn nmos * Rpull) by (apply Rmult_lt_0_compat; assumption).
  set (t := 1 / (kn nmos * Rpull)).
  assert (Ht : 0 < t) by (apply Rdiv_lt_0_compat; lra).
  assert (E : kn nmos * Rpull * t = 1) by (unfold t; field; lra).
  assert (G : 6.6 * t = x ^ 2 + 2 * t * x).
  { assert (G0 : (3.3 - 0.5 * kn nmos * x ^ 2 * Rpull) * (2 * t) = x * (2 * t))
      by (rewrite <- Hb; reflexivity).
    replace ((3.3 - 0.5 * kn nmos * x ^ 2 * Rpull) * (2 * t))
      with (6.6 * t - x ^ 2 * (kn nmos * Rpull * t)) in G0
      by (decimals; field).
    rewrite E in G0. lra. }
  replace ((x + t) ^ 2 - 2 * 3.3 / (kn nmos * Rpull)) with (t ^ 2).
  - rewrite math_sqrt_ok by nra. cbn [bind].
    rewrite sqrt_pow2 by lra. f_equal. ring.
  - replace (2 * 3.3 / (kn nmos * Rpull)) with (6.6 * t)
      by (unfold t; decimals; field; lra).
    rewrite G. ring.
Qed.

End ContinuityFacts.

(** With a positive [kn] and a positive pull-up the continuity value is
    computed without any exception. *)
Lemma cont_voltage_total (nmos : NMOS) (Rpull voltage : R) :
  0 < kn nmos -> 0 < Rpull ->
  exists v, cont_voltage nmos Rpull voltage = Ok v.
Proof.
  intros Hk Hr. unfold cont_voltage.
  destruct (cont_select nmos Rpull voltage) eqn:S; [|eexists; reflexivity].
  apply cont_select_quadratic in S.
  pose proof (radicand_lower_bound nmos Rpull Hk Hr voltage S) as B.
  unfold cont_quadratic. rewrite cont_b_ok, cont_c_ok by assumption. cbn [bind].
  rewrite math_sqrt_ok; [eexists; reflexivity|].
  assert (0 <= (1 / (kn nmos * Rpull)) ^ 2) by apply pow2_ge_0. lra.
Qed.

Lemma cont_sweep_total (voltages : list R) :
  exists vs, cont_sweep voltages = Ok vs /\ length vs = length voltages.
Proof.
  induction voltages as [|v rest [vs [IH L]]]; [exists []; split; reflexivity|].
  destruct (cont_voltage_total cont_nmos Rcont v) as [x Hx];
    [simpl; lra | unfold Rcont; lra |].
  exists (x :: vs). cbn [cont_sweep]. rewrite Hx. cbn [bind]. rewrite IH.
  cbn [bind length]. now rewrite L.
Qed.

(** C4.  With [Vov = voltage - Vt] and the pull-up value
    [Vcont = 3.3 - current*Rcont], the branch under [if ( Vov > Vcont )]
    runs exactly when [Vov] is strictly greater than [Vcont].  That branch
    stores the root [b - sqrt(b^2 - c)] with [b = Vov + 1/(kn*Rcont)] and
    [c = 2*3.3/(kn*Rcont)]: spelled out with the divisions and the square
    root as the code evaluates them, and as a number for [kn > 0] and
    [Rcont > 0].  Otherwise, and in particular on the boundary
    [Vov = Vcont], the else branch runs and [Vcont] is stored. *)
Theorem continuity_branch_selection (nmos : NMOS) (Rpull voltage : R) :
  (cont_select nmos Rpull voltage = QuadraticRoot
   <-> cont_Vov nmos voltage > cont_Vcont nmos Rpull voltage)
  /\ cont_Vov nmos voltage = voltage - Vt nmos
  /\ cont_Vcont nmos Rpull voltage
     = 3.3 - (if Rlt_dec (voltage - Vt nmos) 0 then 0
              else calc_drain_current_sat nmos voltage 0) * Rpull
  /\ (cont_Vov nmos voltage > cont_Vcont nmos Rpull voltage ->
      cont_voltage nmos Rpull voltage
      = (t <- py_div 1 (kn nmos * Rpull) ;;
         c <- py_div (2 * 3.3) (kn nmos * Rpull) ;;
         r <- math_sqrt ((cont_Vov nmos voltage + t) ^ 2 - c) ;;
         Ok (cont_Vov nmos voltage + t - r)))
  /\ (0 < kn nmos -> 0 < Rpull ->
      cont_Vov nmos voltage > cont_Vcont nmos Rpull voltage ->
      cont_voltage nmos Rpull voltage
      = Ok (cont_Vov nmos voltage + 1 / (kn nmos * Rpull)
            - sqrt ((cont_Vov nmos voltage + 1 / (kn nmos * Rpull)) ^ 2
                    - 2 * 3.3 / (kn nmos * Rpull))))
  /\ (cont_Vov nmos voltage <= cont_Vcont nmos Rpull voltage ->
      cont_select nmos Rpull voltage = LinearPullup
      /\ cont_voltage nmos Rpull voltage = Ok (cont_Vcont nmos Rpull voltage))
  /\ (cont_Vov nmos voltage = cont_Vcont nmos Rpull voltage ->
      cont_select nmos Rpull voltage = LinearPullup
      /\ cont_voltage nmos Rpull voltage = Ok (cont_Vcont nmos Rpull voltage)).
Proof.
  assert (Lin : cont_Vov nmos voltage <= cont_Vcont nmos Rpull voltage ->
                cont_select nmos Rpull voltage = LinearPullup
                /\ cont_voltage nmos Rpull voltage
                   = Ok (cont_Vcont nmos Rpull voltage)).
  { intros H. apply cont_select_linear in H. unfold cont_voltage.
    rewrite H. split; reflexivity. }
  assert (Quad : cont_Vov nmos voltage > cont_Vcont nmos Rpull voltage ->
                 cont_voltage nmos Rpull voltage
                 = cont_quadratic nmos Rpull voltage).
  { intros H. apply cont_select_quadratic in H. unfold cont_voltage.
    now rewrite H. }
  split; [apply cont_select_quadratic|].
  split; [reflexivity|]. split; [reflexivity|].
  split; [|split; [|split]].
  - intros H. rewrite (Quad H).
    unfold cont_quadratic, cont_b, cont_c, py_div.
    destruct (Req_dec_T (kn nmos * Rpull) 0); reflexivity.
  - intros Hk Hr H. rewrite (Quad H).
    pose proof (radicand_lower_bound nmos Rpull Hk Hr voltage H) as B.
    assert (0 <= (1 / (kn nmos * Rpull)) ^ 2) by apply pow2_ge_0.
    unfold cont_quadratic. rewrite cont_b_ok, cont_c_ok by assumption.
    cbn [bind]. rewrite math_sqrt_ok by lra. reflexivity.
  - exact Lin.
  - intros H. apply Lin. rewrite H. apply Rle_refl.
Qed.

(** A battery voltage that sits exactly on the boundary, for the continuity
    transistor and the pull-up of the script: [Vov = (sqrt 10495 - 1)/1590]
    solves [Vov = 3.3 - 795*Vov^2]. *)
Lemma cont_boundary_voltage :
  cont_Vov cont_nmos (1.5 + (sqrt 10495 - 1) / 1590)
  = cont_Vcont cont_nmos Rcont (1.5 + (sqrt 10495 - 1) / 1590).
Proof.
  assert (S2 : sqrt 10495 * sqrt 10495 = 10495) by (apply sqrt_sqrt; lra).
  assert (S0 : 0 <= sqrt 10495) by apply sqrt_pos.
  assert (S1 : 1 <= sqrt 10495) by nra.
  unfold cont_Vcont, cont_current, cont_Vov, calc_drain_current_sat, Rcont.
  cbn [Vt kn cont_nmos].
  destruct (Rlt_dec (1.5 + (sqrt 10495 - 1) / 1590 - 1.5) 0) as [L|L]; [lra|].
  nra.
Qed.

(** The first sweep point, 3.7 V, already takes the quadratic branch. *)
Lemma cont_quadratic_at_3_7 :
  cont_Vov cont_nmos 3.7 > cont_Vcont cont_nmos Rcont 3.7.
Proof.
  unfold cont_Vcont, cont_current, cont_Vov, calc_drain_current_sat, Rcont.
  cbn [Vt kn cont_nmos].
  destruct (Rlt_dec (3.7 - 1.5) 0) as [L|L]; lra.
Qed.

Lemma continuity_branch_selection_witness :
  (cont_select cont_nmos Rcont (1.5 + (sqrt 10495 - 1) / 1590) = LinearPullup
   /\ cont_voltage cont_nmos Rcont (1.5 + (sqrt 10495 - 1) / 1590)
      = Ok (cont_Vcont cont_nmos Rcont (1.5 + (sqrt 10495 - 1) / 1590)))
  /\ cont_voltage cont_nmos Rcont 3.7
     = Ok (cont_Vov cont_nmos 3.7 + 1 / (kn cont_nmos * Rcont)
           - sqrt ((cont_Vov cont_nmos 3.7 + 1 / (kn cont_nmos * Rcont)) ^ 2
                   - 2 * 3.3 / (kn cont_nmos * Rcont))).
Proof.
  split.
  - destruct (continuity_branch_selection
                cont_nmos Rcont (1.5 + (sqrt 10495 - 1) / 1590))
      as (_ & _ & _ & _ & _ & _ & Boundary).
    apply Boundary. exact cont_boundary_voltage.
  - destruct (continuity_branch_selection cont_nmos Rcont 3.7)
      as (_ & _ & _ & _ & Root & _).
    apply Root; [simpl; lra|unfold Rcont; lra|exact cont_quadratic_at_3_7].
Defined.

(** C6.  Whenever the quadratic branch is selected, with [kn > 0] and
    [Rcont > 0], the overdrive voltage is not negative, the current is the
    saturation current [0.5*kn*Vov^2], the radicand [b^2 - c] with
    [b = Vov + 1/(kn*Rcont)] and [c = 2*3.3/(kn*Rcont)] is strictly
    positive, and the root [b - sqrt(b^2 - c)] is stored: [math.sqrt] does
    not fail. *)
Theorem continuity_radicand_positive (nmos : NMOS) (Rpull voltage : R) :
  0 < kn nmos -> 0 < Rpull ->
  cont_Vov nmos voltage > cont_Vcont nmos Rpull voltage ->
  0 <= cont_Vov nmos voltage
  /\ cont_current nmos voltage = 0.5 * kn nmos * cont_Vov nmos voltage ^ 2
  /\ 0 < (cont_Vov nmos voltage + 1 / (kn nmos * Rpull)) ^ 2
         - 2 * 3.3 / (kn nmos * Rpull)
  /\ cont_voltage nmos Rpull voltage
     = Ok (cont_Vov nmos voltage + 1 / (kn nmos * Rpull)
           - sqrt ((cont_Vov nmos voltage + 1 / (kn nmos * Rpull)) ^ 2
                   - 2 * 3.3 / (kn nmos * Rpull))).
Proof.
  intros Hk Hr H.
  destruct (cont_quadratic_not_cutoff nmos Rpull voltage H) as [Hov Hc].
  pose proof (radicand_lower_bound nmos Rpull Hk Hr voltage H) as B.
  assert (P : 0 < (cont_Vov nmos voltage + 1 / (kn nmos * Rpull)) ^ 2
                  - 2 * 3.3 / (kn nmos * Rpull)).
  { assert (0 <= (1 / (kn nmos * Rpull)) ^ 2) by apply pow2_ge_0. lra. }
  repeat split; try assumption.
  unfold cont_voltage.
  apply cont_select_quadratic in H. rewrite H.
  unfold cont_quadratic. rewrite cont_b_ok, cont_c_ok by assumption.
  cbn [bind]. rewrite math_sqrt_ok by lra. reflexivity.
Qed.

Lemma continuity_radicand_positive_witness :
  0 < (cont_Vov cont_nmos 3.7 + 1 / (kn cont_nmos * Rcont)) ^ 2
      - 2 * 3.3 / (kn cont_nmos * Rcont).
Proof.
  apply (continuity_radicand_positive cont_nmos Rcont 3.7).
  - simpl; lra.
  - unfold Rcont; lra.
  - exact cont_quadratic_at_3_7.
Defined.

(** ** Drive-current solver *)

(** *** Logarithm estimates *)

Lemma ln_le_minus_1 (x : R) : 0 < x -> ln x <= x - 1.
Proof.
  intros Hx. pose proof (exp_ineq1_le (ln x)) as H.
  rewrite exp_ln in H by assumption. lra.
Qed.

Lemma ln_le_compat (x y : R) : 0 < x -> x <= y -> ln x <= ln y.
Proof.
  intros Hx [L|E].
  - left. now apply ln_increasing.
  - rewrite E. apply Rle_refl.
Qed.

Lemma ln_increment (x y : R) :
  0 < x -> x <= y -> ln y - ln x <= (y - x) / x.
Proof.
  intros Hx Hxy.
  assert (Hq : 0 < y / x) by (apply Rdiv_lt_0_compat; lra).
  replace y with (x * (y / x)) at 1 by (field; lra).
  rewrite ln_mult by assumption.
  pose proof (ln_le_minus_1 (y / x) Hq) as H.
  replace ((y - x) / x) with (y / x - 1) by (field; lra).
  lra.
Qed.

(** *** The mux diode along the iteration *)

Lemma mux_drop_argument (I : R) :
  0 <= I -> 1 <= I / I0 mux_diode + 1.
Proof.
  intros H. assert (0 <= I / I0 mux_diode); [|lra].
  apply Rmult_le_pos; [exact H|].
  left. apply Rinv_0_lt_compat. simpl; lra.
Qed.

Lemma mux_drop_nonneg (I : R) : 0 <= I -> 0 <= mux_drop I.
Proof.
  intros H. unfold mux_drop.
  pose proof (mux_drop_argument I H) as A.
  apply Rmult_le_pos; [|left; apply Rinv_0_lt_compat; simpl; lra].
  rewrite <- ln_1. apply ln_le_compat; lra.
Qed.

Lemma mux_drop_monotone (I J : R) :
  0 <= I -> I <= J -> mux_drop I <= mux_drop J.
Proof.
  intros HI HIJ. unfold mux_drop.
  apply Rmult_le_compat_r; [left; apply Rinv_0_lt_compat; simpl; lra|].
  pose proof (mux_drop_argument I HI) as A.
  apply ln_le_compat; [lra|].
  apply Rplus_le_compat_r, Rmult_le_compat_r; [|exact HIJ].
  left. apply Rinv_0_lt_compat. simpl; lra.
Qed.

(** The drop grows by at most [(J - I)/(alpha*(I + I0))]. *)
Lemma mux_drop_increment (I J : R) :
  0 <= I -> I <= J ->
  mux_drop J - mux_drop I
  <= (J - I) / (alpha mux_diode * (I + I0 mux_diode)).
Proof.
  intros HI HIJ. unfold mux_drop.
  pose proof (mux_drop_argument I HI) as A.
  assert (B : I / I0 mux_diode + 1 <= J / I0 mux_diode + 1).
  { apply Rplus_le_compat_r, Rmult_le_compat_r; [|exact HIJ].
    left. apply Rinv_0_lt_compat. simpl; lra. }
  assert (A' : 0 < I / I0 mux_diode + 1) by lra.
  pose proof (ln_increment _ _ A' B) as L.
  replace ((J / I0 mux_diode + 1 - (I / I0 mux_diode + 1))
           / (I / I0 mux_diode + 1))
    with ((J - I) / (I + I0 mux_diode)) in L
    by (simpl; decimals; field; lra).
  replace (ln (J / I0 mux_diode + 1) / alpha mux_diode
           - ln (I / I0 mux_diode + 1) / alpha mux_diode)
    with ((ln (J / I0 mux_diode + 1) - ln (I / I0 mux_diode + 1))
          / alpha mux_diode)
    by (simpl; decimals; field).
  replace ((J - I) / (alpha mux_diode * (I + I0 mux_diode)))
    with ((J - I) / (I + I0 mux_diode) / alpha mux_diode)
    by (simpl; decimals; field; lra).
  apply Rmult_le_compat_r; [|exact L].
  left. apply Rinv_0_lt_compat. simpl; lra.
Qed.

Lemma calc_voltage_mux (I : R) :
  - I0 mux_diode < I -> calc_voltage mux_diode I = Ok (mux_drop I).
Proof.
  intros H. apply calc_voltage_defined; [simpl; lra|simpl; lra|exact H].
Qed.

(** *** The drive transistor along the iteration *)

Lemma drive_current_saturated (vd : R) :
  2.3 < vd -> drive_current vd = 11.109.
Proof.
  intros H. unfold drive_current.
  rewrite drain_current_quadratic; simpl; lra.
Qed.

Lemma drive_current_below (vd : R) :
  vd <= 2.3 -> drive_current vd = 4.2 * (2.3 * vd - 0.5 * vd ^ 2).
Proof.
  intros H. unfold drive_current.
  rewrite drain_current_complementary; simpl; lra.
Qed.

Lemma drive_current_positive (vd : R) :
  0 < vd -> 0 < drive_current vd <= 9.66 * vd.
Proof.
  intros H. destruct (Rlt_dec 2.3 vd) as [L|L].
  - rewrite drive_current_saturated by assumption. lra.
  - rewrite drive_current_below by lra. nra.
Qed.

Lemma drive_current_negative (vd : R) :
  vd < 0 -> drive_current vd < 0.
Proof.
  intros H. rewrite drive_current_below by lra. nra.
Qed.

Lemma drive_current_at_ground : drive_current 0 = 0.
Proof.
  rewrite drive_current_below by lra. lra.
Qed.

Lemma drive_current_floor (vd : R) :
  0.0959 <= vd -> 0.0041 <= drive_current vd.
Proof.
  intros H. destruct (Rlt_dec 2.3 vd) as [L|L].
  - rewrite drive_current_saturated by assumption. lra.
  - rewrite drive_current_below by lra. nra.
Qed.

(** *** One pass of the loop body *)

Lemma solver_body_ok (voltage : R) (st : solver_state) :
  - I0 mux_diode < current_guess st ->
  drive_current (voltage - mux_drop (current_guess st) - current_guess st * Rp)
  <> 0 ->
  solver_body voltage st = Ok (next_state voltage st).
Proof.
  intros Hg Ha. unfold solver_body.
  rewrite calc_voltage_mux by assumption. cbn [bind].
  fold (drive_current
          (voltage - mux_drop (current_guess st) - current_guess st * Rp)).
  rewrite py_div_ok by assumption. reflexivity.
Qed.

(** Whatever the body returns normally is [next_state], and then neither
    the logarithm nor the division was outside its domain. *)
Lemma solver_body_inv (voltage : R) (st st' : solver_state) :
  solver_body voltage st = Ok st' ->
  - I0 mux_diode < current_guess st
  /\ current_actual st' <> 0
  /\ st' = next_state voltage st.
Proof.
  intros H.
  destruct (Rle_or_lt (current_guess st) (- I0 mux_diode)) as [L|L].
  { unfold solver_body in H.
    rewrite calc_voltage_domain_error in H by (assumption || (simpl; lra)).
    discriminate. }
  destruct (Req_dec_T
              (drive_current
                 (voltage - mux_drop (current_guess st) - current_guess st * Rp))
              0) as [Z|Z].
  { unfold solver_body in H. rewrite calc_voltage_mux in H by assumption.
    cbn [bind] in H.
    fold (drive_current
            (voltage - mux_drop (current_guess st) - current_guess st * Rp))
      in H.
    rewrite Z, py_div_zero in H. discriminate. }
  rewrite solver_body_ok in H by assumption.
  injection H as <-. repeat split; assumption.
Qed.

(** *** The invariant of the iteration *)

Lemma setup_above_ground (voltage : R) (st0 : solver_state) :
  0.1 + mux_drop 0.1 < voltage ->
  drain_above_ground voltage (solver_setup st0).
Proof.
  intros H. unfold drain_above_ground. cbn [solver_setup current_guess].
  split; lra.
Qed.

(** From a state of the invariant the body raises nothing, finds a positive
    current, and leaves a state of the invariant: the damped step moves the
    guess by at most [0.01*9.66*Vd], and the diode drop by at most 9.19 times
    as much, less than the drain voltage [Vd] that was left. *)
Lemma body_keeps_above_ground (voltage : R) (st : solver_state) :
  0.1 + mux_drop 0.1 < voltage ->
  drain_above_ground voltage st ->
  solver_body voltage st = Ok (next_state voltage st)
  /\ 0 < current_actual (next_state voltage st)
  /\ drain_above_ground voltage (next_state voltage st).
Proof.
  intros HV [Hg Hh].
  set (g := current_guess st) in *.
  set (vd := voltage - mux_drop g - g * Rp).
  assert (Hvd : 0 < vd) by (unfold vd, Rp; lra).
  destruct (drive_current_positive vd Hvd) as [Ha Hb].
  assert (Hbody : solver_body voltage st = Ok (next_state voltage st)).
  { apply solver_body_ok; fold g; fold vd; [simpl; lra|lra]. }
  split; [exact Hbody|].
  unfold drain_above_ground, next_state. cbn [current_actual current_guess].
  fold g. fold vd. split; [exact Ha|].
  set (a := drive_current vd) in *.
  set (g' := g + learn_rate * (a - g)).
  assert (Eg' : g' = 0.99 * g + 0.01 * a) by (unfold g', learn_rate; lra).
  assert (Hg' : 0.004 <= g').
  { destruct (Rle_or_lt 0.0041 g) as [L|L]; [lra|].
    assert (M : mux_drop g <= mux_drop 0.1)
      by (apply mux_drop_monotone; lra).
    assert (F : 0.0041 <= a).
    { apply drive_current_floor. unfold vd, Rp. lra. }
    lra. }
  split; [exact Hg'|].
  destruct (Rle_or_lt g' g) as [L|L].
  - assert (M : mux_drop g' <= mux_drop g)
      by (apply mux_drop_monotone; lra).
    lra.
  - pose proof (mux_drop_increment g g' ltac:(lra) ltac:(lra)) as I.
    assert (D : 0.108856 <= alpha mux_diode * (g + I0 mux_diode))
      by (simpl; lra).
    assert (Q : / (alpha mux_diode * (g + I0 mux_diode)) <= 9.19).
    { apply Rle_trans with (/ 0.108856); [|lra].
      apply Rinv_le_contravar; lra. }
    assert (X : (g' - g) / (alpha mux_diode * (g + I0 mux_diode))
                <= (g' - g) * 9.19).
    { unfold Rdiv. apply Rmult_le_compat_l; lra. }
    unfold vd, Rp in Hb. unfold vd, Rp in Hvd. lra.
Qed.

Lemma reachable_above_ground (voltage : R) (st : solver_state) :
  0.1 + mux_drop 0.1 < voltage ->
  reachable voltage st ->
  drain_above_ground voltage st.
Proof.
  intros HV H. induction H as [st0|st st' R IH G B].
  - now apply setup_above_ground.
  - destruct (body_keeps_above_ground voltage st HV IH) as (E & _ & K).
    rewrite E in B. injection B as <-. exact K.
Qed.

(** *** The while loop *)

Lemma solver_guard_true (st : solver_state) :
  solver_guard st = true
  <-> error st >= ERROR_THRESHOLD /\ (num_iter st < MAX_ITERATIONS)%nat.
Proof.
  unfold solver_guard.
  destruct (Rge_dec (error st) ERROR_THRESHOLD) as [G|G].
  - rewrite Nat.ltb_lt. tauto.
  - split; [discriminate|tauto].
Qed.

Lemma solver_guard_false (st : solver_state) :
  solver_guard st = false
  <-> error st < ERROR_THRESHOLD \/ (MAX_ITERATIONS <= num_iter st)%nat.
Proof.
  unfold solver_guard.
  destruct (Rge_dec (error st) ERROR_THRESHOLD) as [G|G].
  - rewrite Nat.ltb_ge. split; [tauto|]. intros [L|L]; [lra|exact L].
  - split; [left; lra|reflexivity].
Qed.

Lemma solver_loop_exit (fuel : nat) (voltage : R) (st : solver_state) :
  solver_guard st = false -> solver_loop fuel voltage st = Some (Ok st).
Proof.
  intros G. destruct fuel; cbn [solver_loop]; now rewrite G.
Qed.

Lemma solver_loop_pass (fuel : nat) (voltage : R) (st st' : solver_state) :
  solver_guard st = true ->
  solver_body voltage st = Ok st' ->
  solver_loop (S fuel) voltage st = solver_loop fuel voltage st'.
Proof.
  intros G B. cbn [solver_loop]. now rewrite G, B.
Qed.

(** What the loop leaves when it ends normally: a reachable state that
    fails the guard. *)
Lemma solver_loop_reachable (fuel : nat) (voltage : R) (st st' : solver_state) :
  reachable voltage st ->
  solver_loop fuel voltage st = Some (Ok st') ->
  reachable voltage st' /\ solver_guard st' = false.
Proof.
  revert st. induction fuel as [|fuel IH]; intros st R H;
    cbn [solver_loop] in H; destruct (solver_guard st) eqn:G;
    try discriminate.
  - injection H as <-. now split.
  - destruct (solver_body voltage st) as [st1|e] eqn:B; [|discriminate].
    apply (IH st1); [|exact H]. now apply reach_body with st.
  - injection H as <-. now split.
Qed.

(** The loop runs to its end on the fuel [MAX_ITERATIONS - num_iter]: the
    counter is the variant. *)
Lemma solver_loop_above_ground (voltage : R) (k : nat) :
  0.1 + mux_drop 0.1 < voltage ->
  forall st,
    (MAX_ITERATIONS - num_iter st <= k)%nat ->
    reachable voltage st ->
    exists st',
      (forall fuel, (k <= fuel)%nat ->
                    solver_loop fuel voltage st = Some (Ok st'))
      /\ (num_iter st <= MAX_ITERATIONS -> num_iter st' <= MAX_ITERATIONS)%nat
      /\ (solver_guard st = true ->
          exists prev, reachable voltage prev
                       /\ solver_guard prev = true
                       /\ st' = next_state voltage prev).
Proof.
  intros HV. induction k as [|k IH]; intros st Hk Re.
  - exists st.
    assert (G : solver_guard st = false) by (apply solver_guard_false; right; lia).
    split; [|split].
    + intros fuel _. now apply solver_loop_exit.
    + tauto.
    + rewrite G. discriminate.
  - destruct (solver_guard st) eqn:G.
    + pose proof (reachable_above_ground voltage st HV Re) as Inv.
      destruct (body_keeps_above_ground voltage st HV Inv) as (B & _ & _).
      assert (Re1 : reachable voltage (next_state voltage st))
        by now apply reach_body with st.
      destruct (IH (next_state voltage st)) as (st' & L & N & P);
        [cbn [next_state num_iter]; lia | exact Re1 |].
      apply solver_guard_true in G as G0. destruct G0 as [_ Glt].
      exists st'. split; [|split].
      * intros [|fuel] Hf; [lia|].
        rewrite (solver_loop_pass fuel voltage st _ G B). apply L. lia.
      * intros _. apply N. cbn [next_state num_iter]. lia.
      * intros _.
        destruct (solver_guard (next_state voltage st)) eqn:G1.
        -- exact (P eq_refl).
        -- pose proof (L k (le_n k)) as E.
           rewrite solver_loop_exit in E by assumption.
           injection E as <-. exists st. now repeat split.
    + exists st. split; [|split].
      * intros fuel _. now apply solver_loop_exit.
      * tauto.
      * discriminate.
Qed.

(** *** The sweep *)

Lemma linspace_range (start stop : R) (num : nat) (v : R) :
  start <= stop -> In v (linspace start stop num) -> start <= v <= stop.
Proof.
  intros Hs H. unfold linspace in H. apply in_map_iff in H as (i & <- & Hi).
  apply in_seq in Hi. destruct Hi as [_ Hi]. cbn in Hi.
  destruct (Nat.eq_dec num 1) as [->|Hn].
  - assert (i = 0%nat) by lia. subst i. cbn. lra.
  - assert (Hd : 0 < INR (num - 1)) by (apply lt_0_INR; lia).
    assert (H0 : 0 <= INR i) by apply pos_INR.
    assert (H1 : INR i <= INR (num - 1)) by (apply le_INR; lia).
    assert (Hq : 0 <= (stop - start) / INR (num - 1)).
    { apply Rmult_le_pos; [lra|]. left. now apply Rinv_0_lt_compat. }
    split.
    + assert (0 <= INR i * ((stop - start) / INR (num - 1)))
        by now apply Rmult_le_pos.
      lra.
    + assert (INR i * ((stop - start) / INR (num - 1))
              <= INR (num - 1) * ((stop - start) / INR (num - 1)))
        by now apply Rmult_le_compat_r.
      replace (INR (num - 1) * ((stop - start) / INR (num - 1)))
        with (stop - start) in H by (field; lra).
      lra.
Qed.

Lemma input_voltages_range (v : R) :
  In v input_voltages -> 3.7 <= v <= 14.8.
Proof.
  intros H. apply linspace_range in H; lra.
Qed.

Lemma input_voltages_length : length input_voltages = 100%nat.
Proof.
  unfold input_voltages, linspace. now rewrite length_map, length_seq.
Qed.

Lemma first_input_voltage : In 3.7 input_voltages.
Proof.
  unfold input_voltages, linspace. apply in_map_iff. exists 0%nat. split.
  - cbn [INR]. lra.
  - apply in_seq. lia.
Qed.

(** The first drain voltage is above ground at every voltage of the sweep. *)
Lemma sweep_starts_above_ground (v : R) :
  3.7 <= v -> 0.1 + mux_drop 0.1 < v.
Proof.
  intros H. unfold mux_drop.
  assert (A : 0 < 0.1 / I0 mux_diode + 1) by (simpl; lra).
  pose proof (ln_le_minus_1 _ A) as L.
  assert (B : 0.1 / I0 mux_diode + 1 - 1 <= 24) by (simpl; lra).
  assert (C : ln (0.1 / I0 mux_diode + 1) / alpha mux_diode <= 24 / 13.28).
  { unfold Rdiv at 1 3. simpl alpha. apply Rmult_le_compat_r; lra. }
  lra.
Qed.

Lemma solver_at_voltage (voltage : R) (st0 : solver_state) :
  0.1 + mux_drop 0.1 < voltage ->
  exists st prev,
    (forall fuel, (MAX_ITERATIONS <= fuel)%nat ->
                  solver_loop fuel voltage (solver_setup st0) = Some (Ok st))
    /\ (num_iter st <= MAX_ITERATIONS)%nat
    /\ solver_guard st = false
    /\ reachable voltage prev
    /\ solver_guard prev = true
    /\ st = next_state voltage prev.
Proof.
  intros HV.
  assert (G : solver_guard (solver_setup st0) = true).
  { apply solver_guard_true. cbn [solver_setup error num_iter].
    unfold ERROR_THRESHOLD, MAX_ITERATIONS. split; [lra|lia]. }
  destruct (solver_loop_above_ground voltage MAX_ITERATIONS HV
              (solver_setup st0)) as (st & L & N & P);
    [cbn [solver_setup num_iter]; lia | apply reach_setup |].
  destruct (P G) as (prev & Rp & Gp & E).
  exists st, prev. repeat split; try assumption.
  - apply N. cbn [solver_setup num_iter]. lia.
  - pose proof (L MAX_ITERATIONS (le_n _)) as H.
    apply solver_loop_reachable in H; [tauto|apply reach_setup].
Qed.

(** After the loop the report follows the counter alone, and short of 1000
    passes the loop can only have stopped on the error. *)
Lemma report_after_loop (st : solver_state) :
  solver_guard st = false ->
  (num_iter st <= MAX_ITERATIONS)%nat ->
  (num_iter st = MAX_ITERATIONS /\ solver_report st = SolverFailedToConverge)
  \/ ((num_iter st < MAX_ITERATIONS)%nat
      /\ error st < ERROR_THRESHOLD
      /\ solver_report st = SolutionConvergedIn (num_iter st)).
Proof.
  intros G N. unfold solver_report.
  destruct (Nat.eqb (num_iter st) MAX_ITERATIONS) eqn:E.
  - apply Nat.eqb_eq in E. now left.
  - apply Nat.eqb_neq in E. right.
    apply solver_guard_false in G. destruct G as [G|G]; [|lia].
    repeat split; [lia|exact G].
Qed.

Lemma record_after_pass (voltage : R) (prev : solver_state) :
  record_results (next_state voltage prev)
  = Ok (mkPoint (solver_report (next_state voltage prev))
                (voltage - mux_drop (current_guess prev)
                 - current_guess prev * Rp)
                (current_guess (next_state voltage prev))
                (mux_drop (current_guess prev))).
Proof.
  reflexivity.
Qed.

(** What the setup leaves does not depend on what [diode_VF] and [Vd] held
    before: the loop runs the same from any earlier state. *)
Lemma solver_setup_guard (st0 : solver_state) :
  solver_guard (solver_setup st0) = true.
Proof.
  apply solver_guard_true. cbn [solver_setup error num_iter].
  unfold ERROR_THRESHOLD, MAX_ITERATIONS. split; [lra|lia].
Qed.

Lemma solver_loop_setup_irrelevant
      (fuel : nat) (voltage : R) (st0 st0' : solver_state) :
  solver_loop fuel voltage (solver_setup st0)
  = solver_loop fuel voltage (solver_setup st0').
Proof.
  destruct fuel as [|fuel]; cbn [solver_loop];
    rewrite !solver_setup_guard; reflexivity.
Qed.

(** A point of the sweep, once the loop has ended normally with both names
    bound: the report and the last guess are recorded, whatever the report
    says, and the for loop goes on to the remaining voltages. *)
Lemma drive_sweep_step (fuel : nat) (v : R) (rest : list R)
      (s0 s : solver_state) (vd vf : R) :
  solver_loop fuel v (solver_setup s0) = Some (Ok s) ->
  Vd s = Some vd -> diode_VF s = Some vf ->
  drive_sweep fuel (v :: rest) s0
  = match drive_sweep fuel rest s with
    | Some (Ok ps) =>
        Some (Ok (mkPoint (solver_report s) vd (current_guess s) vf :: ps))
    | other => other
    end.
Proof.
  intros L Hd Hf. cbn [drive_sweep]. unfold solve_point. rewrite L.
  unfold record_results. rewrite Hd, Hf. reflexivity.
Qed.

Lemma solver_report_failed (s : solver_state) :
  solver_report s = SolverFailedToConverge <-> num_iter s = MAX_ITERATIONS.
Proof.
  unfold solver_report.
  destruct (Nat.eqb (num_iter s) MAX_ITERATIONS) eqn:E.
  - apply Nat.eqb_eq in E. tauto.
  - apply Nat.eqb_neq in E. split; [discriminate|contradiction].
Qed.

(** The point recorded for a voltage is [record_results] of the state the
    loop leaves at that voltage. *)
Lemma drive_sweep_records (voltages : list R) :
  Forall (fun v => 0.1 + mux_drop 0.1 < v) voltages ->
  forall st0, exists ps,
    (forall fuel, (MAX_ITERATIONS <= fuel)%nat ->
                  drive_sweep fuel voltages st0 = Some (Ok ps))
    /\ Forall2 (fun v p =>
                  exists st,
                    (forall fuel s0,
                        (MAX_ITERATIONS <= fuel)%nat ->
                        solver_loop fuel v (solver_setup s0) = Some (Ok st))
                    /\ record_results st = Ok p)
               voltages ps.
Proof.
  induction 1 as [|v rest Hv _ IH]; intros st0.
  - exists []. split; [intros; reflexivity|constructor].
  - destruct (solver_at_voltage v st0 Hv) as (st & prev & L & _ & _ & _ & _ & E).
    destruct (IH st) as (ps & Hps & F).
    exists (mkPoint (solver_report st)
                    (v - mux_drop (current_guess prev) - current_guess prev * Rp)
                    (current_guess st)
                    (mux_drop (current_guess prev)) :: ps).
    split.
    + intros fuel Hf.
      assert (Hd : Vd st
                   = Some (v - mux_drop (current_guess prev)
                           - current_guess prev * Rp))
        by (rewrite E; reflexivity).
      assert (Hvf : diode_VF st = Some (mux_drop (current_guess prev)))
        by (rewrite E; reflexivity).
      rewrite (drive_sweep_step fuel v rest st0 st _ _ (L fuel Hf) Hd Hvf).
      now rewrite (Hps fuel Hf).
    + constructor; [|exact F]. exists st. split.
      * intros fuel s0 Hf.
        rewrite (solver_loop_setup_irrelevant fuel v s0 st0). now apply L.
      * unfold record_results.
        replace (Vd st)
          with (Some (v - mux_drop (current_guess prev)
                      - current_guess prev * Rp))
          by (rewrite E; reflexivity).
        replace (diode_VF st) with (Some (mux_drop (current_guess prev)))
          by (rewrite E; reflexivity).
        reflexivity.
Qed.

Lemma Forall2_at {A B : Type} (P : A -> B -> Prop) (l : list A) (l' : list B) :
  Forall2 P l l' ->
  length l' = length l
  /\ forall i a, nth_error l i = Some a ->
                 exists b, nth_error l' i = Some b /\ P a b.
Proof.
  induction 1 as [|a b l l' Hab F [Len IH]].
  - split; [reflexivity|]. intros [|i] a H; discriminate.
  - split; [cbn [length]; now rewrite Len|].
    intros [|i] a' H; cbn [nth_error] in *.
    + injection H as <-. exists b. now split.
    + now apply IH.
Qed.

(** C1.  At every battery voltage of the 100-point sweep the solver loop
    ends, after at least one and at most 1000 passes, without raising
    anything.  The state it leaves either has fewer than 1000 passes and a
    relative error [|current_actual - current_guess|/current_actual] below
    0.01, and is reported as converged with its pass count, or has exactly
    1000 passes and is reported as not converged.  In both cases the sweep
    goes on: all 100 points are recorded, and the point recorded for the
    voltage is [record_results] of that state, holding its report and its
    last [current_guess].  The report says not converged exactly at 1000
    passes, and whatever it says the last guess is recorded and the for loop
    carries on with the remaining voltages. *)
Theorem drive_solver_terminates (voltage : R) (st0 : solver_state) :
  In voltage input_voltages ->
  exists st,
    (forall fuel, (MAX_ITERATIONS <= fuel)%nat ->
                  solver_loop fuel voltage (solver_setup st0) = Some (Ok st))
    /\ (0 < num_iter st <= MAX_ITERATIONS)%nat
    /\ (exists prev,
           reachable voltage prev
           /\ num_iter st = S (num_iter prev)
           /\ error st
              = Rabs (current_actual st - current_guess prev)
                / current_actual st)
    /\ (((num_iter st < MAX_ITERATIONS)%nat
         /\ error st < ERROR_THRESHOLD
         /\ solver_report st = SolutionConvergedIn (num_iter st))
        \/ (num_iter st = MAX_ITERATIONS
            /\ solver_report st = SolverFailedToConverge))
    /\ (exists vd vf,
           record_results st
           = Ok (mkPoint (solver_report st) vd (current_guess st) vf))
    /\ (exists ps,
           drive_sweep MAX_ITERATIONS input_voltages unbound = Some (Ok ps)
           /\ length ps = 100%nat
           /\ forall i,
               nth_error input_voltages i = Some voltage ->
               exists p,
                 nth_error ps i = Some p
                 /\ record_results st = Ok p
                 /\ printed p = solver_report st
                 /\ drive_currents p = current_guess st)
    /\ (forall s,
           solver_report s = SolverFailedToConverge
           <-> num_iter s = MAX_ITERATIONS)
    /\ (forall fuel v rest s0 s vd vf,
           solver_loop fuel v (solver_setup s0) = Some (Ok s) ->
           Vd s = Some vd -> diode_VF s = Some vf ->
           drive_sweep fuel (v :: rest) s0
           = match drive_sweep fuel rest s with
             | Some (Ok ps) =>
                 Some (Ok (mkPoint (solver_report s) vd (current_guess s) vf
                           :: ps))
             | other => other
             end).
Proof.
  intros Hin.
  assert (HV : 0.1 + mux_drop 0.1 < voltage).
  { apply sweep_starts_above_ground. now apply input_voltages_range. }
  destruct (solver_at_voltage voltage st0 HV)
    as (st & prev & L & N & G & Re & Gp & E).
  assert (Rec : exists vd vf,
             record_results st
             = Ok (mkPoint (solver_report st) vd (current_guess st) vf)).
  { rewrite E. eexists. eexists. apply record_after_pass. }
  exists st. split; [exact L|].
  split; [|split; [|split; [|split; [|split; [|split]]]]].
  - split; [|exact N]. rewrite E. cbn [next_state num_iter]. lia.
  - exists prev. rewrite E. cbn [next_state num_iter error current_actual].
    repeat split. exact Re.
  - destruct (report_after_loop st G N) as [F|C]; [now right|now left].
  - exact Rec.
  - destruct (drive_sweep_records input_voltages) with (st0 := unbound)
      as (ps & Hps & F).
    { apply Forall_forall. intros v Hv.
      apply sweep_starts_above_ground. now apply input_voltages_range. }
    apply Forall2_at in F. destruct F as [Len At].
    exists ps. split; [apply Hps; lia|].
    split; [now rewrite Len, input_voltages_length|].
    intros i Hi. destruct (At i voltage Hi) as (p & Hp & st' & L' & R').
    assert (st' = st).
    { pose proof (L' MAX_ITERATIONS st0 (le_n _)) as H1.
      pose proof (L MAX_ITERATIONS (le_n _)) as H2.
      rewrite H1 in H2. now injection H2. }
    subst st'. exists p. split; [exact Hp|]. split; [exact R'|].
    destruct Rec as (vd & vf & Rec). rewrite Rec in R'.
    injection R' as <-. split; reflexivity.
  - exact solver_report_failed.
  - exact drive_sweep_step.
Qed.

Lemma first_input_voltage_index : nth_error input_voltages 0 = Some 3.7.
Proof.
  unfold input_voltages, linspace. cbn [seq map nth_error INR].
  f_equal. lra.
Qed.

Lemma drive_solver_terminates_witness :
  exists st ps p,
    solver_loop MAX_ITERATIONS 3.7 (solver_setup unbound) = Some (Ok st)
    /\ (num_iter st <= MAX_ITERATIONS)%nat
    /\ drive_sweep MAX_ITERATIONS input_voltages unbound = Some (Ok ps)
    /\ nth_error ps 0 = Some p
    /\ drive_currents p = current_guess st.
Proof.
  destruct (drive_solver_terminates 3.7 unbound first_input_voltage)
    as (st & L & [_ N] & _ & _ & _ & (ps & S & _ & At) & _).
  destruct (At 0%nat first_input_voltage_index) as (p & Hp & _ & _ & Hc).
  exists st, ps, p.
  split; [apply L; apply le_n|]. split; [exact N|].
  split; [exact S|]. split; [exact Hp|exact Hc].
Defined.

(** *** A negative drain current *)

Lemma relative_error_negative (a g : R) :
  a < 0 -> 0 < g -> Rabs (a - g) / a < 0.
Proof.
  intros Ha Hg.
  assert (P : 0 < Rabs (a - g)) by (apply Rabs_pos_lt; lra).
  assert (I : / a < 0) by now apply Rinv_lt_0_compat.
  unfold Rdiv. nra.
Qed.

(** When the first drain voltage is not above ground, the first pass is the
    only one: it either divides by a zero current or finds a negative one,
    and a negative error ends the loop. *)
Lemma first_pass_only (voltage : R) (st : solver_state) :
  voltage <= 0.1 + mux_drop 0.1 ->
  reachable voltage st ->
  solver_guard st = true ->
  current_guess st = 0.1 /\ num_iter st = 0%nat.
Proof.
  intros HV Re. induction Re as [st0|st st' Re IH G B]; intros G'.
  - split; reflexivity.
  - exfalso. destruct (IH G) as [Eg En].
    apply solver_body_inv in B as (_ & Hne & ->).
    apply solver_guard_true in G'. destruct G' as [Ge _].
    cbn [next_state current_actual error] in Hne, Ge.
    rewrite Eg in Hne, Ge. unfold Rp in Hne, Ge.
    set (vd := voltage - mux_drop 0.1 - 0.1 * 1) in *.
    assert (Hvd : vd < 0).
    { destruct (Rtotal_order vd 0) as [N|[Z|P]]; [exact N| |unfold vd in P; lra].
      rewrite Z, drive_current_at_ground in Hne. now elim Hne. }
    pose proof (drive_current_negative vd Hvd) as Ha.
    pose proof (relative_error_negative _ 0.1 Ha ltac:(lra)) as Hn.
    unfold ERROR_THRESHOLD in Ge. lra.
Qed.

(** C10.  The relative error divides by [current_actual] itself, not by its
    absolute value.  So in any pass of the solver, at any battery voltage,
    that finds a strictly negative [current_actual], the error computed is
    negative, the guard [error >= 0.01] fails, the loop ends with that pass,
    and the point is reported as converged. *)
Theorem negative_current_reported_converged
        (voltage : R) (st st' : solver_state) :
  reachable voltage st ->
  solver_guard st = true ->
  solver_body voltage st = Ok st' ->
  current_actual st' < 0 ->
  error st' = Rabs (current_actual st' - current_guess st) / current_actual st'
  /\ error st' < 0
  /\ solver_guard st' = false
  /\ (forall fuel, solver_loop (S fuel) voltage st = Some (Ok st'))
  /\ solver_report st' = SolutionConvergedIn (num_iter st').
Proof.
  intros Re G B Ha.
  destruct (Rlt_dec (0.1 + mux_drop 0.1) voltage) as [HV|HV].
  - exfalso.
    pose proof (reachable_above_ground voltage st HV Re) as Inv.
    destruct (body_keeps_above_ground voltage st HV Inv) as (E & P & _).
    rewrite E in B. injection B as <-. lra.
  - destruct (first_pass_only voltage st ltac:(lra) Re G) as [Eg En].
    apply solver_body_inv in B as B'. destruct B' as (_ & _ & E).
    assert (Herr : error st' < 0).
    { rewrite E in Ha |- *. cbn [next_state error current_actual] in Ha |- *.
      apply relative_error_negative; [exact Ha|lra]. }
    assert (G' : solver_guard st' = false).
    { apply solver_guard_false. left. unfold ERROR_THRESHOLD. lra. }
    split; [rewrite E; reflexivity|].
    split; [exact Herr|]. split; [exact G'|]. split.
    + intros fuel. rewrite (solver_loop_pass fuel voltage st st' G B).
      now apply solver_loop_exit.
    + rewrite E. unfold solver_report. cbn [next_state num_iter].
      rewrite En. reflexivity.
Qed.

Lemma negative_current_reported_converged_witness :
  error (next_state 0 (solver_setup unbound)) < 0
  /\ solver_report (next_state 0 (solver_setup unbound))
     = SolutionConvergedIn 1.
Proof.
  assert (Hd : 0 <= mux_drop 0.1) by (apply mux_drop_nonneg; lra).
  assert (Ha : drive_current (0 - mux_drop 0.1 - 0.1 * Rp) < 0)
    by (apply drive_current_negative; unfold Rp; lra).
  assert (G : solver_guard (solver_setup unbound) = true).
  { apply solver_guard_true. cbn [solver_setup error num_iter].
    unfold ERROR_THRESHOLD, MAX_ITERATIONS. split; [lra|lia]. }
  assert (B : solver_body 0 (solver_setup unbound)
              = Ok (next_state 0 (solver_setup unbound))).
  { apply solver_body_ok; cbn [solver_setup current_guess]; [simpl; lra|lra]. }
  destruct (negative_current_reported_converged
              0 (solver_setup unbound) (next_state 0 (solver_setup unbound))
              (reach_setup 0 unbound) G B Ha)
    as (_ & Herr & _ & _ & Hrep).
  split; [exact Herr|exact Hrep].
Defined.

(** ** The forward drop at 0.1 A *)

Lemma fx_scale_pos : 0 < IZR fx_scale.
Proof.
  apply IZR_lt. reflexivity.
Qed.

Lemma fx_nonneg (m : Z) : (0 <= m)%Z -> 0 <= fx m.
Proof.
  intros H. unfold fx. apply Rmult_le_pos; [now apply IZR_le|].
  left. apply Rinv_0_lt_compat, fx_scale_pos.
Qed.

Lemma fx_down_step (m : Z) : fx (m * m / fx_scale) <= fx m * fx m.
Proof.
  pose proof fx_scale_pos as P.
  assert (H : (fx_scale * (m * m / fx_scale) <= m * m)%Z)
    by (apply Z.mul_div_le; reflexivity).
  apply IZR_le in H. rewrite !mult_IZR in H.
  unfold fx.
  apply Rmult_le_reg_r with (IZR fx_scale * IZR fx_scale);
    [now apply Rmult_lt_0_compat|].
  replace (IZR (m * m / fx_scale) / IZR fx_scale
           * (IZR fx_scale * IZR fx_scale))
    with (IZR fx_scale * IZR (m * m / fx_scale)) by (field; lra).
  replace (IZR m / IZR fx_scale * (IZR m / IZR fx_scale)
           * (IZR fx_scale * IZR fx_scale))
    with (IZR m * IZR m) by (field; lra).
  exact H.
Qed.

Lemma fx_up_step (m : Z) : fx m * fx m <= fx (m * m / fx_scale + 1).
Proof.
  pose proof fx_scale_pos as P.
  assert (H : (m * m < fx_scale * Z.succ (m * m / fx_scale))%Z)
    by (apply Z.mul_succ_div_gt; reflexivity).
  apply IZR_lt in H. rewrite !mult_IZR in H.
  unfold Z.succ in H. unfold fx.
  apply Rmult_le_reg_r with (IZR fx_scale * IZR fx_scale);
    [now apply Rmult_lt_0_compat|].
  replace (IZR (m * m / fx_scale + 1) / IZR fx_scale
           * (IZR fx_scale * IZR fx_scale))
    with (IZR fx_scale * IZR (m * m / fx_scale + 1)) by (field; lra).
  replace (IZR m / IZR fx_scale * (IZR m / IZR fx_scale)
           * (IZR fx_scale * IZR fx_scale))
    with (IZR m * IZR m) by (field; lra).
  left. exact H.
Qed.

Lemma exp_double (y : R) : exp (2 * y) = exp y * exp y.
Proof.
  rewrite <- exp_plus. f_equal. ring.
Qed.

Lemma fx_square_down_sound (n : nat) :
  forall (m : Z) (y : R),
    (0 <= m)%Z -> fx m <= exp y ->
    fx (fx_square_down n m) <= exp (2 ^ n * y).
Proof.
  induction n as [|n IH]; intros m y Hm H.
  - cbn [fx_square_down pow]. now rewrite Rmult_1_l.
  - cbn [fx_square_down].
    replace (2 ^ S n * y) with (2 ^ n * (2 * y)) by (cbn [pow]; ring).
    apply IH.
    + apply Z.div_pos; [apply Z.mul_nonneg_nonneg; assumption|reflexivity].
    + rewrite exp_double. apply Rle_trans with (fx m * fx m).
      * apply fx_down_step.
      * pose proof (fx_nonneg m Hm).
        apply Rmult_le_compat; assumption.
Qed.

Lemma fx_square_up_sound (n : nat) :
  forall (m : Z) (y : R),
    (0 <= m)%Z -> exp y <= fx m ->
    exp (2 ^ n * y) <= fx (fx_square_up n m).
Proof.
  induction n as [|n IH]; intros m y Hm H.
  - cbn [fx_square_up pow]. now rewrite Rmult_1_l.
  - cbn [fx_square_up].
    replace (2 ^ S n * y) with (2 ^ n * (2 * y)) by (cbn [pow]; ring).
    apply IH.
    + assert (0 <= m * m / fx_scale)%Z
        by (apply Z.div_pos; [apply Z.mul_nonneg_nonneg; assumption|reflexivity]).
      lia.
    + rewrite exp_double. apply Rle_trans with (fx m * fx m).
      * pose proof (exp_pos y).
        apply Rmult_le_compat; lra.
      * apply fx_up_step.
Qed.

(** [exp y <= 1/(1 - y)] below 1. *)
Lemma exp_le_inv (y : R) : y < 1 -> exp y <= / (1 - y).
Proof.
  intros H. pose proof (exp_ineq1_le (- y)) as L.
  rewrite exp_Ropp in L.
  rewrite <- (Rinv_inv (exp y)).
  apply Rinv_le_contravar; lra.
Qed.

Lemma fx_value (m : Z) : fx m = IZR m / 1000000000000000000.
Proof.
  reflexivity.
Qed.

Lemma exp_below_argument : exp 3.2119008 < 0.1 / 0.004197 + 1.
Proof.
  replace 3.2119008 with (2 ^ 20 * (3.2119008 / 1048576)) by (simpl; lra).
  apply Rle_lt_trans
    with (fx (fx_square_up 20 1000003063116682460)).
  - apply fx_square_up_sound; [lia|].
    apply Rle_trans with (/ (1 - 3.2119008 / 1048576)).
    + apply exp_le_inv. lra.
    + rewrite fx_value. lra.
  - replace (fx_square_up 20 1000003063116682460)
      with 24826353229704918271%Z by (vm_compute; reflexivity).
    rewrite fx_value. lra.
Qed.

Lemma exp_above_argument : 0.1 / 0.004197 + 1 < exp 3.2120336.
Proof.
  replace 3.2120336 with (2 ^ 20 * (3.2120336 / 1048576)) by (simpl; lra).
  apply Rlt_le_trans
    with (fx (fx_square_down 20 1000003063233947753)).
  - replace (fx_square_down 20 1000003063233947753)
      with 24829406095438557677%Z by (vm_compute; reflexivity).
    rewrite fx_value. lra.
  - apply fx_square_down_sound; [lia|].
    apply Rle_trans with (1 + 3.2120336 / 1048576).
    + rewrite fx_value. lra.
    + apply exp_ineq1_le.
Qed.

Lemma mux_drop_enclosure :
  0.24186 < ln (0.1 / 0.004197 + 1) / 13.28 < 0.24187.
Proof.
  assert (P : 0 < 0.1 / 0.004197 + 1) by lra.
  assert (Lo : 3.2119008 < ln (0.1 / 0.004197 + 1)).
  { apply exp_lt_inv. rewrite exp_ln by exact P. apply exp_below_argument. }
  assert (Hi : ln (0.1 / 0.004197 + 1) < 3.2120336).
  { apply exp_lt_inv. rewrite exp_ln by exact P. apply exp_above_argument. }
  lra.
Qed.

(** C9, as the code has it.  For the mux diode, [I0 = 0.004197] and
    [alpha = 13.28], [calc_voltage 0.1] returns
    [ln(0.1/0.004197 + 1)/13.28]; that number is 0.24186..., which is
    0.2419 V to four decimals. *)
Theorem mux_diode_voltage_at_100mA :
  I0 mux_diode = 0.004197 /\ alpha mux_diode = 13.28
  /\ calc_voltage mux_diode 0.1 = Ok (ln (0.1 / 0.004197 + 1) / 13.28)
  /\ 0.24186 < ln (0.1 / 0.004197 + 1) / 13.28 < 0.24187
  /\ Rabs (ln (0.1 / 0.004197 + 1) / 13.28 - 0.2419) < 0.00005.
Proof.
  split; [reflexivity|]. split; [reflexivity|]. split.
  - rewrite calc_voltage_defined by (simpl; lra). reflexivity.
  - pose proof mux_drop_enclosure as B.
    split; [exact B|]. apply Rabs_def1; lra.
Qed.

(** C9, the figure quoted.  What [calc_voltage 0.1] returns is more than
    0.0003 above 0.2415: it is not 0.2415 V to the four decimals given. *)
Lemma mux_diode_voltage_is_not_0_2415 :
  exists VF,
    calc_voltage mux_diode 0.1 = Ok VF
    /\ 0.2415 + 0.0003 < VF
    /\ ~ Rabs (VF - 0.2415) <= 0.00005.
Proof.
  exists (ln (0.1 / 0.004197 + 1) / 13.28).
  pose proof mux_drop_enclosure as B. split; [|split].
  - rewrite calc_voltage_defined by (simpl; lra). reflexivity.
  - lra.
  - intros H. pose proof (Rle_abs (ln (0.1 / 0.004197 + 1) / 13.28 - 0.2415)). lra.
Qed.

(** * Further properties of the device models *)

(** ** Diode *)

Section DiodeInverse.

Variable self : Diode.
Hypothesis I0_pos : 0 < I0 self.
Hypothesis alpha_pos : 0 < alpha self.

Lemma calc_current_above_floor (VF : R) : - I0 self < calc_current self VF.
Proof.
  unfold calc_current, math_exp.
  pose proof (exp_pos (alpha self * VF)) as E. nra.
Qed.

Lemma calc_current_argument (VF : R) :
  calc_current self VF / I0 self + 1 = exp (alpha self * VF).
Proof.
  unfold calc_current, math_exp. field. lra.
Qed.

Lemma calc_voltage_of_current (VF : R) :
  calc_voltage self (calc_current self VF) = Ok VF.
Proof.
  rewrite calc_voltage_defined
    by (assumption || apply calc_current_above_floor).
  rewrite calc_current_argument, ln_exp. f_equal. field. lra.
Qed.

Lemma calc_voltage_increasing (I J : R) :
  - I0 self < I -> I < J ->
  ln (I / I0 self + 1) / alpha self < ln (J / I0 self + 1) / alpha self.
Proof.
  intros HI HIJ.
  apply Rmult_lt_compat_r; [now apply Rinv_0_lt_compat|].
  apply ln_increasing.
  - apply log_argument_sign; assumption.
  - apply Rplus_lt_compat_r, Rmult_lt_compat_r;
      [now apply Rinv_0_lt_compat|exact HIJ].
Qed.

End DiodeInverse.

(** X1.  The round trip in the other direction, for [I0 > 0],
    [alpha > 0] and [-30 <= alpha*VF <= 700]: what [calc_current] returns
    lies above [-I0], with a logarithm argument [I/I0 + 1] of at least
    [exp(-30)], so [calc_voltage] does not raise on it, and it gives the
    voltage back.  The range is the one on which the binary64 evaluation
    stays clear of the two places where it would leave the reals by an
    exception: far below it [exp(alpha*VF) - 1] rounds to -1 and the
    logarithm is handed 0, and above it [math.exp] overflows. *)
Theorem diode_voltage_of_current (self : Diode) (VF : R) :
  0 < I0 self -> 0 < alpha self ->
  -30 <= alpha self * VF <= 700 ->
  - I0 self < calc_current self VF
  /\ exp (-30) <= calc_current self VF / I0 self + 1 <= exp 700
  /\ calc_voltage self (calc_current self VF) = Ok VF.
Proof.
  intros Hi Ha [Lo Hi']. split; [|split].
  - now apply calc_current_above_floor.
  - rewrite calc_current_argument by assumption. split.
    + destruct Lo as [Lo|Lo]; [left; now apply exp_increasing|].
      rewrite Lo. apply Rle_refl.
    + destruct Hi' as [Hi'|Hi']; [left; now apply exp_increasing|].
      rewrite Hi'. apply Rle_refl.
  - now apply calc_voltage_of_current.
Qed.

Lemma diode_voltage_of_current_witness :
  calc_voltage mux_diode (calc_current mux_diode (-2)) = Ok (-2).
Proof.
  apply (diode_voltage_of_current mux_diode (-2)); simpl; lra.
Defined.

(** X2.  For [I0 > 0] and [alpha > 0] the forward drop is strictly
    increasing in the current on its whole domain [I > -I0], and is 0 at no
    current. *)
Theorem diode_voltage_strictly_increasing (self : Diode) (I J : R) :
  0 < I0 self -> 0 < alpha self -> - I0 self < I -> I < J ->
  calc_voltage self 0 = Ok 0
  /\ exists VI VJ,
      calc_voltage self I = Ok VI /\ calc_voltage self J = Ok VJ /\ VI < VJ.
Proof.
  intros Hi Ha HI HIJ. split.
  - rewrite calc_voltage_defined by lra.
    replace (0 / I0 self + 1) with 1 by (field; lra).
    rewrite ln_1. f_equal. field. lra.
  - exists (ln (I / I0 self + 1) / alpha self),
           (ln (J / I0 self + 1) / alpha self).
    split; [apply calc_voltage_defined; assumption|].
    split; [apply calc_voltage_defined; lra|].
    now apply calc_voltage_increasing.
Qed.

Lemma diode_voltage_strictly_increasing_witness :
  exists VI VJ,
    calc_voltage mux_diode 0.1 = Ok VI /\ calc_voltage mux_diode 1 = Ok VJ
    /\ VI < VJ.
Proof.
  destruct (diode_voltage_strictly_increasing mux_diode 0.1 1)
    as (_ & VI & VJ & HI & HJ & L); try (simpl; lra).
  exists VI, VJ. repeat split; assumption.
Defined.

(** X3.  For [I0 > 0] and [alpha > 0] the diode current has the sign of the
    voltage: zero at zero bias, positive in forward bias, and in reverse
    bias negative but never down to [-I0]. *)
Theorem diode_current_sign (self : Diode) (VF : R) :
  0 < I0 self -> 0 < alpha self ->
  calc_current self 0 = 0
  /\ (0 < VF -> 0 < calc_current self VF)
  /\ (VF < 0 -> - I0 self < calc_current self VF < 0).
Proof.
  intros Hi Ha.
  assert (Z : calc_current self 0 = 0).
  { unfold calc_current, math_exp. rewrite Rmult_0_r, exp_0. ring. }
  split; [exact Z|]. split; intros H.
  - rewrite <- Z. now apply calc_current_increasing.
  - split; [now apply calc_current_above_floor|].
    rewrite <- Z. now apply calc_current_increasing.
Qed.

Lemma diode_current_sign_witness :
  - I0 mux_diode < calc_current mux_diode (-1) < 0.
Proof.
  apply (diode_current_sign mux_diode (-1)); simpl; lra.
Defined.

(** X4.  [Diode.calc_currents] and [diode_equation] return one current per
    voltage, and for [I0 > 0] and [alpha > 0] they take a strictly
    increasing sequence of voltages to a strictly increasing sequence of
    currents. *)
Theorem diode_currents_sorted (self : Diode) (VF : list R) :
  0 < I0 self -> 0 < alpha self ->
  StronglySorted Rlt VF ->
  length (calc_currents self VF) = length VF
  /\ StronglySorted Rlt (calc_currents self VF)
  /\ diode_equation VF (alpha self) (I0 self) = calc_currents self VF.
Proof.
  intros Hi Ha HS. unfold calc_currents.
  split; [apply length_map|]. split; [|reflexivity].
  induction HS as [|v l HS IH HF]; cbn [map]; constructor.
  - exact IH.
  - apply Forall_map. revert HF. apply Forall_impl.
    intros w Hw. now apply calc_current_increasing.
Qed.

Lemma diode_currents_sorted_witness :
  StronglySorted Rlt (calc_currents mux_diode [0.14; 0.2; 0.27]).
Proof.
  apply (diode_currents_sorted mux_diode [0.14; 0.2; 0.27]);
    try (simpl; lra).
  repeat constructor; lra.
Defined.

(** ** NMOS *)

Ltac nmos_regions :=
  unfold calc_drain_current, calc_drain_current_sat;
  repeat match goal with
         | |- context [Rlt_dec ?a ?b] => destruct (Rlt_dec a b)
         end.

Lemma drain_current_nonneg (self : NMOS) (Vg Vd Vs : R) :
  0 <= kn self -> 0 <= Vd - Vs -> 0 <= calc_drain_current self Vg Vd Vs.
Proof.
  intros Hk H.
  assert (S : 0 <= (Vg - Vs - Vt self) ^ 2) by apply pow2_ge_0.
  nmos_regions; try nra.
  assert (0 <= (Vg - Vs - Vt self) * (Vd - Vs) - 0.5 * (Vd - Vs) ^ 2)
    by nra.
  nra.
Qed.

(** X5.  For [kn >= 0] the drain current never exceeds the saturation
    current [calc_drain_current_sat] of the same gate and source; it equals
    it in the region [0 <= Vov < Vds]; and it is not negative as long as the
    drain is not below the source. *)
Theorem drain_current_bounds (self : NMOS) (Vg Vd Vs : R) :
  0 <= kn self ->
  calc_drain_current self Vg Vd Vs <= calc_drain_current_sat self Vg Vs
  /\ (0 <= Vg - Vs - Vt self -> Vg - Vs - Vt self < Vd - Vs ->
      calc_drain_current self Vg Vd Vs = calc_drain_current_sat self Vg Vs)
  /\ (0 <= Vd - Vs -> 0 <= calc_drain_current self Vg Vd Vs).
Proof.
  intros Hk.
  assert (S : 0 <= (Vg - Vs - Vt self) ^ 2) by apply pow2_ge_0.
  assert (D : 0 <= (Vd - Vs) ^ 2) by apply pow2_ge_0.
  assert (Q : 0 <= ((Vg - Vs - Vt self) - (Vd - Vs)) ^ 2) by apply pow2_ge_0.
  split; [|split].
  - nmos_regions; nra.
  - intros H0 H1. nmos_regions; lra.
  - now apply drain_current_nonneg.
Qed.

Lemma drain_current_bounds_witness :
  calc_drain_current drive_nmos 3.3 2 0
  <= calc_drain_current_sat drive_nmos 3.3 0.
Proof.
  apply (drain_current_bounds drive_nmos 3.3 2 0). simpl; lra.
Defined.

(** X6.  The value is not clamped at zero: for [kn > 0] the drain current
    is strictly negative exactly when the transistor is out of cutoff and
    the drain is below the source. *)
Theorem drain_current_negative_iff (self : NMOS) (Vg Vd Vs : R) :
  0 < kn self ->
  (calc_drain_current self Vg Vd Vs < 0
   <-> 0 <= Vg - Vs - Vt self /\ Vd - Vs < 0).
Proof.
  intros Hk.
  assert (S : 0 <= (Vg - Vs - Vt self) ^ 2) by apply pow2_ge_0.
  split.
  - nmos_regions; intros H; try nra.
    split; [lra|].
    destruct (Rlt_dec (Vd - Vs) 0) as [L|L]; [exact L|exfalso].
    assert (0 <= (Vg - Vs - Vt self) * (Vd - Vs) - 0.5 * (Vd - Vs) ^ 2)
      by nra.
    nra.
  - intros [H0 H1]. nmos_regions; try lra.
    assert ((Vg - Vs - Vt self) * (Vd - Vs) - 0.5 * (Vd - Vs) ^ 2 < 0)
      by nra.
    nra.
Qed.

Lemma drain_current_negative_iff_witness :
  calc_drain_current drive_nmos 3.3 (-1) 0 < 0.
Proof.
  apply (drain_current_negative_iff drive_nmos 3.3 (-1) 0); simpl; lra.
Defined.

(** X7.  For [kn >= 0] the drain current does not decrease when the drain
    voltage rises, gate and source held. *)
Theorem drain_current_monotone_in_drain (self : NMOS) (Vg Vs Vd1 Vd2 : R) :
  0 <= kn self -> Vd1 <= Vd2 ->
  calc_drain_current self Vg Vd1 Vs <= calc_drain_current self Vg Vd2 Vs.
Proof.
  intros Hk H.
  destruct (Rlt_dec (Vg - Vs - Vt self) 0) as [C|C].
  - rewrite !drain_current_cutoff by assumption. apply Rle_refl.
  - rewrite !drain_current_closed_form by lra.
    assert (M : Rmax 0 (Vg - Vs - Vt self - (Vd2 - Vs))
                <= Rmax 0 (Vg - Vs - Vt self - (Vd1 - Vs))).
    { apply Rmax_lub; [apply Rmax_l|].
      apply Rle_trans with (Vg - Vs - Vt self - (Vd1 - Vs)); [lra|].
      apply Rmax_r. }
    assert (P : 0 <= Rmax 0 (Vg - Vs - Vt self - (Vd2 - Vs))) by apply Rmax_l.
    set (m1 := Rmax 0 (Vg - Vs - Vt self - (Vd1 - Vs))) in *.
    set (m2 := Rmax 0 (Vg - Vs - Vt self - (Vd2 - Vs))) in *.
    assert (Sq : m2 ^ 2 <= m1 ^ 2) by nra.
    assert (0 <= kn self * (m1 ^ 2 - m2 ^ 2))
      by (apply Rmult_le_pos; lra).
    lra.
Qed.

Lemma drain_current_monotone_in_drain_witness :
  calc_drain_current drive_nmos 3.3 1 0 <= calc_drain_current drive_nmos 3.3 2 0.
Proof.
  apply (drain_current_monotone_in_drain drive_nmos 3.3 0 1 2); simpl; lra.
Defined.

(** X8.  For [kn >= 0] and a drain not below the source, the drain current
    does not decrease when the gate voltage rises. *)
Theorem drain_current_monotone_in_gate (self : NMOS) (Vg1 Vg2 Vd Vs : R) :
  0 <= kn self -> 0 <= Vd - Vs -> Vg1 <= Vg2 ->
  calc_drain_current self Vg1 Vd Vs <= calc_drain_current self Vg2 Vd Vs.
Proof.
  intros Hk Hd H.
  destruct (Rlt_dec (Vg1 - Vs - Vt self) 0) as [C1|C1].
  { rewrite (drain_current_cutoff self Vg1) by assumption.
    now apply drain_current_nonneg. }
  set (x1 := Vg1 - Vs - Vt self) in *.
  set (x2 := Vg2 - Vs - Vt self).
  set (d := Vd - Vs) in *.
  assert (H12 : x1 <= x2) by (unfold x1, x2; lra).
  destruct (Rlt_dec x1 d) as [Q1|Q1]; destruct (Rlt_dec x2 d) as [Q2|Q2].
  - rewrite !drain_current_quadratic by (fold x1 || fold x2; fold d; lra).
    fold x1 x2.
    replace (0.5 * kn self * x1 ^ 2) with (kn self * (0.5 * x1 ^ 2)) by ring.
    replace (0.5 * kn self * x2 ^ 2) with (kn self * (0.5 * x2 ^ 2)) by ring.
    apply Rmult_le_compat_l; [exact Hk|nra].
  - rewrite (drain_current_quadratic self Vg1) by (fold x1; fold d; lra).
    rewrite (drain_current_complementary self Vg2) by (fold x2; fold d; lra).
    fold x1 x2 d.
    replace (0.5 * kn self * x1 ^ 2) with (kn self * (0.5 * x1 ^ 2)) by ring.
    apply Rmult_le_compat_l; [exact Hk|nra].
  - lra.
  - rewrite !drain_current_complementary by (fold x1 || fold x2; fold d; lra).
    fold x1 x2 d.
    apply Rmult_le_compat_l; [exact Hk|nra].
Qed.

Lemma drain_current_monotone_in_gate_witness :
  calc_drain_current drive_nmos 2 1 0 <= calc_drain_current drive_nmos 3.3 1 0.
Proof.
  apply (drain_current_monotone_in_gate drive_nmos 2 3.3 1 0); simpl; lra.
Defined.

(** *** The array form *)

Lemma drain_currents_loop_some (self : NMOS) (Vg Vd Vs : list R) :
  (length Vg <= length Vd)%nat -> (length Vg <= length Vs)%nat ->
  forall rest i,
    (i + length rest = length Vg)%nat ->
    exists cs,
      drain_currents_loop self Vg Vd Vs i rest = Some cs
      /\ length cs = length rest
      /\ forall j g d s,
          nth_error Vg (i + j) = Some g ->
          nth_error Vd (i + j) = Some d ->
          nth_error Vs (i + j) = Some s ->
          (j < length rest)%nat ->
          nth_error cs j = Some (calc_drain_current self g d s).
Proof.
  intros Hd Hs. induction rest as [|r rest IH]; intros i Hi.
  - exists []. repeat split. intros j g d s _ _ _ Hj. cbn in Hj. lia.
  - cbn [length] in Hi. cbn [drain_currents_loop].
    destruct (nth_error Vg i) as [g0|] eqn:Eg;
      [|apply nth_error_None in Eg; lia].
    destruct (nth_error Vd i) as [d0|] eqn:Ed;
      [|apply nth_error_None in Ed; lia].
    destruct (nth_error Vs i) as [s0|] eqn:Es;
      [|apply nth_error_None in Es; lia].
    destruct (IH (S i)) as (cs & E & L & N); [lia|].
    exists (calc_drain_current self g0 d0 s0 :: cs).
    rewrite E. cbn [option_map length]. repeat split; [now rewrite L|].
    intros [|j] g d s Hg Hd' Hs' Hj.
    + rewrite Nat.add_0_r in Hg, Hd', Hs'.
      rewrite Eg in Hg. rewrite Ed in Hd'. rewrite Es in Hs'.
      injection Hg as <-. injection Hd' as <-. injection Hs' as <-.
      reflexivity.
    + cbn [nth_error]. apply N.
      * now replace (S i + j)%nat with (i + S j)%nat by lia.
      * now replace (S i + j)%nat with (i + S j)%nat by lia.
      * now replace (S i + j)%nat with (i + S j)%nat by lia.
      * cbn [length] in Hj. lia.
Qed.

Lemma drain_currents_loop_none (self : NMOS) (Vg Vd Vs : list R) :
  (length Vd < length Vg \/ length Vs < length Vg)%nat ->
  forall rest i,
    rest <> [] ->
    (i + length rest = length Vg)%nat ->
    drain_currents_loop self Vg Vd Vs i rest = None.
Proof.
  intros Hshort. induction rest as [|r rest IH]; intros i Hne Hi;
    [now elim Hne|].
  cbn [length] in Hi. cbn [drain_currents_loop].
  destruct (nth_error Vg i) as [g0|] eqn:Eg; [|reflexivity].
  destruct (nth_error Vd i) as [d0|] eqn:Ed; [|reflexivity].
  destruct (nth_error Vs i) as [s0|] eqn:Es; [|reflexivity].
  assert (Ld : (i < length Vd)%nat)
    by (apply nth_error_Some; rewrite Ed; discriminate).
  assert (Ls : (i < length Vs)%nat)
    by (apply nth_error_Some; rewrite Es; discriminate).
  rewrite IH; [reflexivity| |lia].
  destruct rest; [cbn [length] in Hi; lia|discriminate].
Qed.

(** X9.  [NMOS.calc_drain_currents] raises the [IndexError] exactly when
    [Vd] or [Vs] has fewer entries than [Vg]; otherwise it returns one
    current per entry of [Vg], the [i]-th computed from the [i]-th entries of
    the three sequences, whatever lies beyond in [Vd] and [Vs]. *)
Theorem calc_drain_currents_spec (self : NMOS) (Vg Vd Vs : list R) :
  (calc_drain_currents self Vg Vd Vs = None
   <-> (length Vd < length Vg \/ length Vs < length Vg)%nat)
  /\ (forall cs,
         calc_drain_currents self Vg Vd Vs = Some cs ->
         length cs = length Vg
         /\ forall i g d s,
             nth_error Vg i = Some g ->
             nth_error Vd i = Some d ->
             nth_error Vs i = Some s ->
             nth_error cs i = Some (calc_drain_current self g d s)).
Proof.
  unfold calc_drain_currents.
  destruct (le_lt_dec (length Vg) (length Vd)) as [Hd|Hd];
    [destruct (le_lt_dec (length Vg) (length Vs)) as [Hs|Hs]|].
  - destruct (drain_currents_loop_some self Vg Vd Vs Hd Hs Vg 0%nat)
      as (cs & E & L & N); [reflexivity|].
    rewrite E. split.
    + split; [discriminate|lia].
    + intros cs' H. injection H as <-. split; [exact L|].
      intros i g d s Hg Hd' Hs'. apply (N i g d s); try assumption.
      apply nth_error_Some. rewrite Hg. discriminate.
  - assert (Vg <> []) by (destruct Vg; [cbn in Hs; lia|discriminate]).
    rewrite drain_currents_loop_none by (auto; lia).
    split; [split; auto|discriminate].
  - assert (Vg <> []) by (destruct Vg; [cbn in Hd; lia|discriminate]).
    rewrite drain_currents_loop_none by (auto; lia).
    split; [split; auto|discriminate].
Qed.

(** * Further properties of the continuity closed form *)

(** ** The lower root of [r^2 - 2*b*r + c] *)

Lemma lower_root_product (b c : R) :
  0 <= b ^ 2 - c ->
  (b - sqrt (b ^ 2 - c)) * (b + sqrt (b ^ 2 - c)) = c.
Proof.
  intros H. pose proof (sqrt_sqrt _ H) as S. nra.
Qed.

Lemma lower_root_solves (b c : R) :
  0 <= b ^ 2 - c ->
  (b - sqrt (b ^ 2 - c)) ^ 2 - 2 * b * (b - sqrt (b ^ 2 - c)) + c = 0.
Proof.
  intros H. pose proof (sqrt_sqrt _ H) as S. nra.
Qed.

Lemma lower_root_positive (b c : R) :
  0 < c -> 0 < b -> 0 <= b ^ 2 - c -> 0 < b - sqrt (b ^ 2 - c).
Proof.
  intros Hc Hb H. pose proof (sqrt_sqrt _ H) as S.
  pose proof (sqrt_pos (b ^ 2 - c)) as P. nra.
Qed.

(** The lower root falls as [b] rises. *)
Lemma lower_root_antitone (b1 b2 c : R) :
  0 < c -> 0 < b1 -> b1 <= b2 -> 0 <= b1 ^ 2 - c ->
  b2 - sqrt (b2 ^ 2 - c) <= b1 - sqrt (b1 ^ 2 - c).
Proof.
  intros Hc Hb H12 H1.
  assert (H2 : 0 <= b2 ^ 2 - c) by nra.
  assert (Ss : sqrt (b1 ^ 2 - c) <= sqrt (b2 ^ 2 - c))
    by (apply sqrt_le_1; nra).
  pose proof (lower_root_product b1 c H1) as P1.
  pose proof (lower_root_product b2 c H2) as P2.
  pose proof (lower_root_positive b1 c Hc Hb H1) as R1.
  pose proof (lower_root_positive b2 c Hc ltac:(lra) H2) as R2.
  pose proof (sqrt_pos (b1 ^ 2 - c)) as S1.
  set (r1 := b1 - sqrt (b1 ^ 2 - c)) in *.
  set (r2 := b2 - sqrt (b2 ^ 2 - c)) in *.
  set (d1 := b1 + sqrt (b1 ^ 2 - c)) in *.
  set (d2 := b2 + sqrt (b2 ^ 2 - c)) in *.
  assert (D12 : d1 <= d2) by (unfold d1, d2; lra).
  assert (D1 : 0 < d1) by (unfold d1; lra).
  destruct (Rle_or_lt r2 r1) as [L|L]; [exact L|exfalso].
  assert (r1 * d1 < r2 * d1) by now apply Rmult_lt_compat_r.
  assert (r2 * d1 <= r2 * d2) by (apply Rmult_le_compat_l; lra).
  lra.
Qed.

(** ** The guard, in terms of [t = 1/(kn*Rpull)] *)

Section ContinuityAlgebra.

Variable nmos : NMOS.
Variable Rpull : R.
Hypothesis kn_pos : 0 < kn nmos.
Hypothesis Rpull_pos : 0 < Rpull.

Lemma cont_t_pos : 0 < 1 / (kn nmos * Rpull).
Proof.
  apply Rdiv_lt_0_compat; [lra|now apply Rmult_lt_0_compat].
Qed.

Lemma cont_c_value :
  2 * 3.3 / (kn nmos * Rpull) = 6.6 * (1 / (kn nmos * Rpull)).
Proof.
  assert (0 < kn nmos * Rpull) by now apply Rmult_lt_0_compat.
  decimals. field. lra.
Qed.

Lemma cont_Vcont_cutoff (voltage : R) :
  cont_Vov nmos voltage < 0 -> cont_Vcont nmos Rpull voltage = 3.3.
Proof.
  intros H. unfold cont_Vcont, cont_current.
  destruct (Rlt_dec (cont_Vov nmos voltage) 0); [ring|contradiction].
Qed.

(** Out of cutoff, [2*t*Vcont = 6.6*t - Vov^2]. *)
Lemma cont_Vcont_conducting (voltage : R) :
  0 <= cont_Vov nmos voltage ->
  cont_current nmos voltage = 0.5 * kn nmos * cont_Vov nmos voltage ^ 2
  /\ 2 * (1 / (kn nmos * Rpull)) * cont_Vcont nmos Rpull voltage
     = 6.6 * (1 / (kn nmos * Rpull)) - cont_Vov nmos voltage ^ 2.
Proof.
  intros H.
  assert (P : 0 < kn nmos * Rpull) by now apply Rmult_lt_0_compat.
  assert (C : cont_current nmos voltage
              = 0.5 * kn nmos * cont_Vov nmos voltage ^ 2).
  { unfold cont_current.
    destruct (Rlt_dec (cont_Vov nmos voltage) 0); [lra|].
    unfold calc_drain_current_sat, cont_Vov.
    replace (voltage - 0 - Vt nmos) with (voltage - Vt nmos) by ring.
    reflexivity. }
  split; [exact C|]. unfold cont_Vcont. rewrite C.
  decimals. field. lra.
Qed.

Lemma cont_guard_algebra (voltage : R) :
  cont_Vov nmos voltage > cont_Vcont nmos Rpull voltage
  <-> 0 <= cont_Vov nmos voltage
      /\ 6.6 * (1 / (kn nmos * Rpull))
         < cont_Vov nmos voltage ^ 2
           + 2 * (1 / (kn nmos * Rpull)) * cont_Vov nmos voltage.
Proof.
  pose proof cont_t_pos as T.
  destruct (Rlt_dec (cont_Vov nmos voltage) 0) as [N|N].
  - rewrite cont_Vcont_cutoff by assumption. split; intros H; lra.
  - destruct (cont_Vcont_conducting voltage) as [_ E]; [lra|].
    set (x := cont_Vov nmos voltage) in *.
    set (t := 1 / (kn nmos * Rpull)) in *.
    set (v := cont_Vcont nmos Rpull voltage) in *.
    split; intros H.
    + split; [lra|]. assert (2 * t * v < 2 * t * x) by nra. lra.
    + destruct H as [_ H]. assert (2 * t * v < 2 * t * x) by lra. nra.
Qed.

Lemma cont_voltage_quadratic_value (voltage : R) :
  cont_Vov nmos voltage > cont_Vcont nmos Rpull voltage ->
  cont_voltage nmos Rpull voltage
  = Ok (cont_Vov nmos voltage + 1 / (kn nmos * Rpull)
        - sqrt ((cont_Vov nmos voltage + 1 / (kn nmos * Rpull)) ^ 2
                - 6.6 * (1 / (kn nmos * Rpull)))).
Proof.
  intros H.
  pose proof (radicand_lower_bound nmos Rpull kn_pos Rpull_pos voltage H) as B.
  assert (0 <= (1 / (kn nmos * Rpull)) ^ 2) by apply pow2_ge_0.
  unfold cont_voltage. apply cont_select_quadratic in H. rewrite H.
  unfold cont_quadratic. rewrite cont_b_ok, cont_c_ok by assumption.
  cbn [bind]. rewrite math_sqrt_ok by lra. now rewrite cont_c_value.
Qed.

Lemma cont_voltage_linear_value (voltage : R) :
  cont_Vov nmos voltage <= cont_Vcont nmos Rpull voltage ->
  cont_voltage nmos Rpull voltage = Ok (cont_Vcont nmos Rpull voltage).
Proof.
  intros H. unfold cont_voltage. apply cont_select_linear in H.
  now rewrite H.
Qed.

End ContinuityAlgebra.

(** ** What is stored *)

Section ContinuityStored.

Variable nmos : NMOS.
Variable Rpull : R.
Hypothesis kn_pos : 0 < kn nmos.
Hypothesis Rpull_pos : 0 < Rpull.

(** The linear branch stores a voltage at or above the overdrive voltage:
    the transistor, seen through [calc_drain_current], draws the saturation
    current the branch assumed. *)
Lemma cont_linear_facts (voltage : R) :
  cont_Vov nmos voltage <= cont_Vcont nmos Rpull voltage ->
  0 < cont_Vcont nmos Rpull voltage <= 3.3
  /\ cont_Vcont nmos Rpull voltage
     = 3.3 - calc_drain_current nmos voltage
                                (cont_Vcont nmos Rpull voltage) 0 * Rpull.
Proof.
  intros H.
  destruct (Rlt_dec (cont_Vov nmos voltage) 0) as [N|N].
  - rewrite cont_Vcont_cutoff by assumption.
    rewrite drain_current_cutoff
      by (unfold cont_Vov in N; lra).
    split; [lra|ring].
  - destruct (cont_Vcont_conducting nmos Rpull kn_pos Rpull_pos voltage)
      as [C E]; [lra|].
    pose proof (cont_t_pos nmos Rpull kn_pos Rpull_pos) as T.
    assert (K : calc_drain_current nmos voltage
                  (cont_Vcont nmos Rpull voltage) 0
                = cont_current nmos voltage).
    { rewrite C. unfold cont_Vov in *.
      destruct (Rlt_dec (voltage - Vt nmos)
                        (cont_Vcont nmos Rpull voltage)) as [L|L].
      - rewrite drain_current_quadratic by lra.
        replace (voltage - 0 - Vt nmos) with (voltage - Vt nmos) by ring.
        reflexivity.
      - rewrite drain_current_complementary by lra.
        replace (cont_Vcont nmos Rpull voltage) with (voltage - Vt nmos)
          by lra.
        decimals. field. }
    rewrite K. split; [|reflexivity].
    set (x := cont_Vov nmos voltage) in *.
    set (t := 1 / (kn nmos * Rpull)) in *.
    set (v := cont_Vcont nmos Rpull voltage) in *.
    assert (X2 : 0 <= x ^ 2) by apply pow2_ge_0.
    split; [|nra].
    destruct (Rle_or_lt x 0) as [Z|P]; [|lra].
    assert (x = 0) by lra. nra.
Qed.

(** The quadratic branch stores a voltage strictly below the overdrive
    voltage that solves the pull-up equation with the current of that
    region. *)
Lemma cont_quadratic_facts (voltage : R) :
  cont_Vov nmos voltage > cont_Vcont nmos Rpull voltage ->
  exists v,
    cont_voltage nmos Rpull voltage = Ok v
    /\ 0 < v < cont_Vov nmos voltage
    /\ v <= 3.3
    /\ v = 3.3 - calc_drain_current nmos voltage v 0 * Rpull.
Proof.
  intros H.
  rewrite (cont_voltage_quadratic_value nmos Rpull kn_pos Rpull_pos voltage H).
  apply cont_guard_algebra in H; try assumption. destruct H as [Hx G].
  pose proof (cont_t_pos nmos Rpull kn_pos Rpull_pos) as T.
  eexists. split; [reflexivity|].
  assert (KT : kn nmos * Rpull * (1 / (kn nmos * Rpull)) = 1).
  { assert (0 < kn nmos * Rpull) by now apply Rmult_lt_0_compat.
    field. lra. }
  unfold cont_Vov in *.
  set (x := voltage - Vt nmos) in *.
  set (t := 1 / (kn nmos * Rpull)) in *.
  assert (D : t ^ 2 < (x + t) ^ 2 - 6.6 * t) by nra.
  assert (D0 : 0 <= (x + t) ^ 2 - 6.6 * t) by nra.
  pose proof (sqrt_sqrt _ D0) as S2.
  pose proof (sqrt_pos ((x + t) ^ 2 - 6.6 * t)) as S0.
  pose proof (lower_root_positive (x + t) (6.6 * t) ltac:(lra) ltac:(lra) D0)
    as Rpos.
  pose proof (lower_root_solves (x + t) (6.6 * t) D0) as Rsol.
  set (s := sqrt ((x + t) ^ 2 - 6.6 * t)) in *.
  assert (St : t < s) by nra.
  set (r := x + t - s) in *.
  assert (Rx : r < x) by (unfold r; lra).
  assert (E : calc_drain_current nmos voltage r 0
              = kn nmos * (x * r - 0.5 * r ^ 2)).
  { rewrite drain_current_complementary
      by (replace (voltage - 0 - Vt nmos) with x by (unfold x; ring); lra).
    replace (voltage - 0 - Vt nmos) with x by (unfold x; ring).
    replace (r - 0) with r by ring. reflexivity. }
  rewrite E.
  assert (Q : r = 3.3 - kn nmos * (x * r - 0.5 * r ^ 2) * Rpull).
  { apply Rmult_eq_reg_l with (2 * t); [|lra].
    replace (2 * t * (3.3 - kn nmos * (x * r - 0.5 * r ^ 2) * Rpull))
      with (6.6 * t - 2 * (x * r - 0.5 * r ^ 2) * (kn nmos * Rpull * t))
      by (decimals; ring).
    rewrite KT. lra. }
  split; [lra|]. split; [|exact Q].
  assert (0 <= kn nmos * (x * r - 0.5 * r ^ 2) * Rpull).
  { apply Rmult_le_pos; [|lra]. apply Rmult_le_pos; [lra|nra]. }
  lra.
Qed.

End ContinuityStored.

(** X10.  With [kn > 0] and a positive pull-up, whichever branch runs the
    value stored is consistent with the transistor model: it solves
    [v = 3.3 - calc_drain_current(voltage, v, 0)*Rcont], the drain of the
    continuity transistor hanging on the pull-up from 3.3 V. *)
Theorem continuity_voltage_self_consistent (nmos : NMOS) (Rpull voltage : R) :
  0 < kn nmos -> 0 < Rpull ->
  exists v,
    cont_voltage nmos Rpull voltage = Ok v
    /\ v = 3.3 - calc_drain_current nmos voltage v 0 * Rpull.
Proof.
  intros Hk Hr.
  destruct (Rle_or_lt (cont_Vov nmos voltage) (cont_Vcont nmos Rpull voltage))
    as [L|Q].
  - exists (cont_Vcont nmos Rpull voltage). split.
    + now apply cont_voltage_linear_value.
    + now apply cont_linear_facts.
  - destruct (cont_quadratic_facts nmos Rpull Hk Hr voltage Q)
      as (v & E & _ & _ & F).
    exists v. now split.
Qed.

Lemma continuity_voltage_self_consistent_witness :
  exists v,
    cont_voltage cont_nmos Rcont 3.7 = Ok v
    /\ v = 3.3 - calc_drain_current cont_nmos 3.7 v 0 * Rcont.
Proof.
  apply (continuity_voltage_self_consistent cont_nmos Rcont 3.7);
    [simpl; lra|unfold Rcont; lra].
Defined.

(** X11.  With [kn > 0] and a positive pull-up the stored continuity
    voltage lies in (0, 3.3]; it is the full 3.3 V exactly while the
    transistor is off or just at threshold ([voltage <= Vt]), and in the
    quadratic branch it is strictly below the overdrive voltage. *)
Theorem continuity_voltage_range (nmos : NMOS) (Rpull voltage : R) :
  0 < kn nmos -> 0 < Rpull ->
  exists v,
    cont_voltage nmos Rpull voltage = Ok v
    /\ 0 < v <= 3.3
    /\ (v = 3.3 <-> voltage <= Vt nmos)
    /\ (cont_select nmos Rpull voltage = QuadraticRoot ->
        v < cont_Vov nmos voltage).
Proof.
  intros Hk Hr.
  pose proof (cont_t_pos nmos Rpull Hk Hr) as T.
  destruct (Rle_or_lt (cont_Vov nmos voltage) (cont_Vcont nmos Rpull voltage))
    as [L|Q].
  - exists (cont_Vcont nmos Rpull voltage).
    split; [now apply cont_voltage_linear_value|].
    split; [now apply cont_linear_facts|]. split.
    + destruct (Rlt_dec (cont_Vov nmos voltage) 0) as [N|N].
      * rewrite cont_Vcont_cutoff by assumption.
        unfold cont_Vov in N. split; intros; lra.
      * destruct (cont_Vcont_conducting nmos Rpull Hk Hr voltage) as [_ E];
          [lra|].
        unfold cont_Vov in *.
        split; intros H.
        -- rewrite H in E. assert ((voltage - Vt nmos) ^ 2 = 0) by lra.
           assert (voltage - Vt nmos = 0) by nra. lra.
        -- assert (Z : voltage - Vt nmos = 0) by lra.
           rewrite Z in E. nra.
    + intros S. apply cont_select_quadratic in S. lra.
  - destruct (cont_quadratic_facts nmos Rpull Hk Hr voltage Q)
      as (v & E & [P X] & U & F).
    exists v. split; [exact E|]. split; [lra|]. split.
    + apply cont_guard_algebra in Q; try assumption.
      destruct Q as [Hx G]. unfold cont_Vov in *.
      split; intros H.
      * exfalso.
        assert (C : calc_drain_current nmos voltage v 0 * Rpull = 0) by lra.
        rewrite drain_current_complementary in C by lra.
        assert (0 < (voltage - 0 - Vt nmos) * (v - 0) - 0.5 * (v - 0) ^ 2)
          by nra.
        assert (0 < kn nmos * ((voltage - 0 - Vt nmos) * (v - 0)
                               - 0.5 * (v - 0) ^ 2) * Rpull).
        { apply Rmult_lt_0_compat; [|lra]. now apply Rmult_lt_0_compat. }
        lra.
      * exfalso. nra.
    + intros _. exact X.
Qed.

Lemma continuity_voltage_range_witness :
  exists v, cont_voltage cont_nmos Rcont 3.7 = Ok v /\ 0 < v <= 3.3.
Proof.
  destruct (continuity_voltage_range cont_nmos Rcont 3.7)
    as (v & E & B & _); [simpl; lra|unfold Rcont; lra|].
  exists v. split; assumption.
Defined.

(** ** Across battery voltages *)

Section ContinuityAcross.

Variable nmos : NMOS.
Variable Rpull : R.
Hypothesis kn_pos : 0 < kn nmos.
Hypothesis Rpull_pos : 0 < Rpull.

(** The overdrive voltage at which the two branches meet, plus [t]. *)
Lemma cont_meeting_point :
  let t := 1 / (kn nmos * Rpull) in
  let u := sqrt (t ^ 2 + 6.6 * t) in
  t < u /\ u ^ 2 = t ^ 2 + 6.6 * t.
Proof.
  intros t u. pose proof (cont_t_pos nmos Rpull kn_pos Rpull_pos) as T.
  fold t in T.
  assert (P : 0 <= t ^ 2 + 6.6 * t) by nra.
  pose proof (sqrt_sqrt _ P) as S. pose proof (sqrt_pos (t ^ 2 + 6.6 * t)) as S0.
  fold u in S, S0. split; nra.
Qed.

Lemma cont_guard_threshold (voltage : R) :
  cont_Vov nmos voltage > cont_Vcont nmos Rpull voltage
  <-> cont_Vov nmos voltage
      > sqrt ((1 / (kn nmos * Rpull)) ^ 2 + 6.6 * (1 / (kn nmos * Rpull)))
        - 1 / (kn nmos * Rpull).
Proof.
  pose proof (cont_t_pos nmos Rpull kn_pos Rpull_pos) as T.
  destruct cont_meeting_point as [U U2]. cbv zeta in U, U2.
  rewrite cont_guard_algebra by assumption.
  set (x := cont_Vov nmos voltage) in *.
  set (t := 1 / (kn nmos * Rpull)) in *.
  set (u := sqrt (t ^ 2 + 6.6 * t)) in *.
  split.
  - intros [Hx G]. destruct (Rlt_or_le (u - t) x) as [L|L]; [lra|exfalso].
    nra.
  - intros H. split; nra.
Qed.

Lemma cont_voltage_antitone (V1 V2 : R) :
  V1 <= V2 ->
  exists v1 v2,
    cont_voltage nmos Rpull V1 = Ok v1
    /\ cont_voltage nmos Rpull V2 = Ok v2
    /\ v2 <= v1.
Proof.
  intros H12.
  pose proof (cont_t_pos nmos Rpull kn_pos Rpull_pos) as T.
  destruct cont_meeting_point as [U U2]. cbv zeta in U, U2.
  assert (X12 : cont_Vov nmos V1 <= cont_Vov nmos V2)
    by (unfold cont_Vov; lra).
  destruct (Rle_or_lt (cont_Vov nmos V1) (cont_Vcont nmos Rpull V1))
    as [L1|Q1];
    destruct (Rle_or_lt (cont_Vov nmos V2) (cont_Vcont nmos Rpull V2))
    as [L2|Q2].
  - (* both linear *)
    exists (cont_Vcont nmos Rpull V1), (cont_Vcont nmos Rpull V2).
    split; [now apply cont_voltage_linear_value|].
    split; [now apply cont_voltage_linear_value|].
    destruct (Rlt_dec (cont_Vov nmos V1) 0) as [N1|N1].
    + rewrite (cont_Vcont_cutoff nmos Rpull V1) by assumption.
      now apply cont_linear_facts.
    + destruct (cont_Vcont_conducting nmos Rpull kn_pos Rpull_pos V1)
        as [_ E1]; [lra|].
      destruct (cont_Vcont_conducting nmos Rpull kn_pos Rpull_pos V2)
        as [_ E2]; [lra|].
      nra.
  - (* linear, then quadratic *)
    destruct (cont_quadratic_facts nmos Rpull kn_pos Rpull_pos V2 Q2)
      as (v2 & E2 & [P2 _] & B2 & _).
    exists (cont_Vcont nmos Rpull V1), v2.
    split; [now apply cont_voltage_linear_value|]. split; [exact E2|].
    destruct (Rlt_dec (cont_Vov nmos V1) 0) as [N1|N1].
    { rewrite (cont_Vcont_cutoff nmos Rpull V1) by assumption. exact B2. }
    rewrite (cont_voltage_quadratic_value nmos Rpull kn_pos Rpull_pos V2 Q2)
      in E2.
    injection E2 as <-.
    apply cont_guard_threshold in Q2.
    assert (NQ1 : ~ cont_Vov nmos V1 > cont_Vcont nmos Rpull V1) by lra.
    rewrite cont_guard_threshold in NQ1.
    destruct (cont_Vcont_conducting nmos Rpull kn_pos Rpull_pos V1)
      as [_ E1]; [lra|].
    set (x1 := cont_Vov nmos V1) in *.
    set (x2 := cont_Vov nmos V2) in *.
    set (t := 1 / (kn nmos * Rpull)) in *.
    set (u := sqrt (t ^ 2 + 6.6 * t)) in *.
    assert (A : x2 + t - sqrt ((x2 + t) ^ 2 - 6.6 * t)
                <= u - sqrt (u ^ 2 - 6.6 * t)).
    { apply lower_root_antitone; nra. }
    replace (u ^ 2 - 6.6 * t) with (t ^ 2) in A by lra.
    rewrite sqrt_pow2 in A by lra.
    apply Rle_trans with (u - t); [exact A|].
    assert (x1 <= u - t) by lra.
    nra.
  - (* quadratic, then linear: cannot be *)
    exfalso.
    apply cont_guard_threshold in Q1.
    assert (NQ2 : ~ cont_Vov nmos V2 > cont_Vcont nmos Rpull V2) by lra.
    rewrite cont_guard_threshold in NQ2. lra.
  - (* both quadratic *)
    rewrite (cont_voltage_quadratic_value nmos Rpull kn_pos Rpull_pos V1 Q1).
    rewrite (cont_voltage_quadratic_value nmos Rpull kn_pos Rpull_pos V2 Q2).
    eexists. eexists. split; [reflexivity|]. split; [reflexivity|].
    apply cont_guard_algebra in Q1; try assumption. destruct Q1 as [Hx1 G1].
    apply lower_root_antitone; nra.
Qed.

End ContinuityAcross.

(** X12.  With [kn > 0], a positive pull-up and [t = 1/(kn*Rcont)], the
    quadratic branch runs exactly when the overdrive voltage exceeds
    [sqrt(t^2 + 6.6*t) - t]; below that the linear value is stored. *)
Theorem continuity_branch_threshold (nmos : NMOS) (Rpull voltage : R) :
  0 < kn nmos -> 0 < Rpull ->
  (cont_select nmos Rpull voltage = QuadraticRoot
   <-> cont_Vov nmos voltage
       > sqrt ((1 / (kn nmos * Rpull)) ^ 2 + 6.6 * (1 / (kn nmos * Rpull)))
         - 1 / (kn nmos * Rpull)).
Proof.
  intros Hk Hr. rewrite cont_select_quadratic.
  now apply cont_guard_threshold.
Qed.

Lemma continuity_branch_threshold_witness :
  cont_select cont_nmos Rcont 3.7 = QuadraticRoot.
Proof.
  apply (continuity_branch_threshold cont_nmos Rcont 3.7);
    [simpl; lra|unfold Rcont; lra|].
  apply cont_guard_threshold; [simpl; lra|unfold Rcont; lra|].
  exact cont_quadratic_at_3_7.
Defined.

(** X13.  With [kn > 0] and a positive pull-up the stored continuity
    voltage never rises with the battery voltage: across the two branches
    and the switch between them it is non-increasing. *)
Theorem continuity_voltage_monotone (nmos : NMOS) (Rpull V1 V2 : R) :
  0 < kn nmos -> 0 < Rpull -> V1 <= V2 ->
  exists v1 v2,
    cont_voltage nmos Rpull V1 = Ok v1
    /\ cont_voltage nmos Rpull V2 = Ok v2
    /\ v2 <= v1.
Proof.
  intros Hk Hr H. now apply cont_voltage_antitone.
Qed.

Lemma continuity_voltage_monotone_witness :
  exists v1 v2,
    cont_voltage cont_nmos Rcont 1 = Ok v1
    /\ cont_voltage cont_nmos Rcont 3.7 = Ok v2
    /\ v2 <= v1.
Proof.
  apply (continuity_voltage_monotone cont_nmos Rcont 1 3.7);
    [simpl; lra|unfold Rcont; lra|lra].
Defined.

(** * Further properties of the drive solver *)

(** ** The loop from any state *)

(** X14.  From any state and at any battery voltage the while loop makes
    at most [MAX_ITERATIONS - num_iter] passes: on that much fuel it has
    ended, normally or by an exception of its body, and a normal end leaves
    the guard false and a counter that is at most 1000 if it started so. *)
Theorem solver_loop_bounded (voltage : R) (st : solver_state) (fuel : nat) :
  (MAX_ITERATIONS - num_iter st <= fuel)%nat ->
  solver_loop fuel voltage st <> None
  /\ forall st',
      solver_loop fuel voltage st = Some (Ok st') ->
      solver_guard st' = false
      /\ (num_iter st <= num_iter st')%nat
      /\ (num_iter st <= MAX_ITERATIONS -> num_iter st' <= MAX_ITERATIONS)%nat.
Proof.
  revert st. induction fuel as [|fuel IH]; intros st Hf;
    cbn [solver_loop]; destruct (solver_guard st) eqn:G.
  - apply solver_guard_true in G. lia.
  - split; [discriminate|]. intros st' H. injection H as <-.
    repeat split; [exact G|lia|tauto].
  - destruct (solver_body voltage st) as [st1|e] eqn:B.
    + pose proof B as B'. apply solver_body_inv in B' as (_ & _ & E).
      assert (N1 : num_iter st1 = S (num_iter st)) by (rewrite E; reflexivity).
      apply solver_guard_true in G. destruct G as [_ G].
      destruct (IH st1) as [NN P]; [lia|]. split; [exact NN|].
      intros st' H. destruct (P st' H) as (G' & L & M).
      repeat split; [exact G'|lia|]. intros _. apply M. lia.
    + split; discriminate.
  - split; [discriminate|]. intros st' H. injection H as <-.
    repeat split; [exact G|lia|tauto].
Qed.

Lemma solver_loop_bounded_witness :
  solver_loop MAX_ITERATIONS 0 (solver_setup unbound) <> None.
Proof.
  apply (solver_loop_bounded 0 (solver_setup unbound) MAX_ITERATIONS).
  cbn [solver_setup num_iter]. lia.
Defined.

(** ** The drive transistor between two drain voltages *)

Lemma drive_current_ceiling (vd : R) : drive_current vd <= 11.109.
Proof.
  destruct (Rlt_dec 2.3 vd) as [L|L].
  - rewrite drive_current_saturated by assumption. lra.
  - rewrite drive_current_below by lra. nra.
Qed.

Lemma drive_current_slope (x y : R) :
  0 <= x -> x <= y ->
  0 <= drive_current y - drive_current x <= 9.66 * (y - x).
Proof.
  intros Hx Hxy.
  destruct (Rlt_dec 2.3 x) as [Lx|Lx]; destruct (Rlt_dec 2.3 y) as [Ly|Ly];
    try lra.
  - rewrite !drive_current_saturated by assumption. lra.
  - rewrite (drive_current_saturated y) by assumption.
    rewrite (drive_current_below x) by lra. nra.
  - rewrite !drive_current_below by lra. nra.
Qed.

(** ** The guess rises towards the current *)

Lemma drive_current_positive_inv (vd : R) : 0 < drive_current vd -> 0 < vd.
Proof.
  intros H. destruct (Rtotal_order vd 0) as [N|[Z|P]]; [|subst vd|exact P].
  - pose proof (drive_current_negative vd N). lra.
  - rewrite drive_current_at_ground in H. lra.
Qed.

Lemma rising_setup (voltage : R) (st0 : solver_state) :
  0.1 <= drive_current (voltage - mux_drop 0.1 - 0.1 * Rp) ->
  rising voltage (solver_setup st0).
Proof.
  intros H. unfold rising. cbn [solver_setup current_guess num_iter error].
  pose proof (drive_current_ceiling (voltage - mux_drop 0.1 - 0.1 * Rp)) as C.
  split; [lra|]. split; [apply drive_current_positive_inv; lra|].
  split; [exact H|]. split; [cbn [pow]; lra|]. intros N. lia.
Qed.

Lemma rising_step (voltage : R) (st : solver_state) :
  rising voltage st ->
  solver_body voltage st = Ok (next_state voltage st)
  /\ rising voltage (next_state voltage st)
  /\ current_guess st <= current_guess (next_state voltage st)
     <= current_actual (next_state voltage st)
  /\ current_actual (next_state voltage st) <= 11.109
  /\ 0 <= error (next_state voltage st) < 1.
Proof.
  unfold rising. cbv zeta. intros (Hg & Hvd & Hga & Hgap & _).
  cbn [next_state current_guess current_actual num_iter error].
  set (g := current_guess st) in *.
  set (vd := voltage - mux_drop g - g * Rp) in *.
  set (a := drive_current vd) in *.
  assert (Ha : 0.1 <= a) by lra.
  assert (Hc : a <= 11.109) by apply drive_current_ceiling.
  assert (Hs : a <= 9.66 * vd)
    by (apply (drive_current_positive vd Hvd)).
  split.
  { apply solver_body_ok; fold g; fold vd; fold a; [simpl; lra|lra]. }
  set (g' := g + learn_rate * (a - g)).
  assert (Eg' : g' = g + 0.01 * (a - g)) by reflexivity.
  set (vd' := voltage - mux_drop g' - g' * Rp).
  (* the drain voltage drops by between delta and 1.723*delta *)
  assert (M0 : mux_drop g <= mux_drop g')
    by (apply mux_drop_monotone; lra).
  pose proof (mux_drop_increment g g' ltac:(lra) ltac:(lra)) as I.
  assert (Q : / (alpha mux_diode * (g + I0 mux_diode)) <= 0.723).
  { apply Rle_trans with (/ 1.3837); [|lra].
    apply Rinv_le_contravar; simpl; lra. }
  assert (X : (g' - g) / (alpha mux_diode * (g + I0 mux_diode))
              <= (g' - g) * 0.723).
  { unfold Rdiv. apply Rmult_le_compat_l; lra. }
  assert (Dlo : g' - g <= vd - vd') by (unfold vd, vd', Rp; lra).
  assert (Dhi : vd - vd' <= 1.723 * (g' - g)) by (unfold vd, vd', Rp; lra).
  assert (Hvd' : 0 < vd') by lra.
  destruct (drive_current_slope vd' vd ltac:(lra) ltac:(lra)) as [S0 S1].
  fold a in S0, S1.
  set (a' := drive_current vd') in *.
  assert (Hga' : g' <= a') by lra.
  assert (P99 : 0 <= 0.99 ^ num_iter st) by (apply pow_le; lra).
  split; [|split; [lra|split; [lra|]]].
  - split; [lra|]. split; [exact Hvd'|]. split; [exact Hga'|]. split.
    + cbn [pow]. lra.
    + intros _. replace (S (num_iter st) - 1)%nat with (num_iter st) by lia.
      rewrite Rabs_pos_eq by lra.
      assert (Ia : / a <= 10).
      { apply Rle_trans with (/ 0.1); [|lra].
        apply Rinv_le_contravar; lra. }
      assert (Ip : 0 < / a) by (apply Rinv_0_lt_compat; lra).
      unfold Rdiv. split; [nra|].
      apply Rle_trans with ((a - g) * 10); [apply Rmult_le_compat_l; lra|lra].
  - rewrite Rabs_pos_eq by lra.
    assert (Ip : 0 < / a) by (apply Rinv_0_lt_compat; lra).
    unfold Rdiv. split; [nra|].
    apply Rmult_lt_reg_r with a; [lra|].
    rewrite Rmult_assoc, Rinv_l by lra. lra.
Qed.

Lemma reachable_rising (voltage : R) (st : solver_state) :
  0.1 <= drive_current (voltage - mux_drop 0.1 - 0.1 * Rp) ->
  reachable voltage st ->
  rising voltage st.
Proof.
  intros HV H. induction H as [st0|st st' Re IH G B].
  - now apply rising_setup.
  - destruct (rising_step voltage st IH) as (E & K & _).
    rewrite E in B. injection B as <-. exact K.
Qed.

(** ** Convergence *)

Lemma pow_099_ratio (n : nat) :
  0.99 ^ n = IZR (99 ^ Z.of_nat n) / IZR (100 ^ Z.of_nat n).
Proof.
  replace 0.99 with (IZR 99 * / IZR 100) by lra.
  rewrite Rpow_mult_distr, pow_inv, !pow_IZR. reflexivity.
Qed.

Lemma pow_099_antitone (n m : nat) :
  (n <= m)%nat -> 0.99 ^ m <= 0.99 ^ n.
Proof.
  intros H. replace m with (n + (m - n))%nat by lia. rewrite pow_add.
  assert (P : 0 <= 0.99 ^ n) by (apply pow_le; lra).
  assert (Q : 0.99 ^ (m - n) <= 1 ^ (m - n)) by (apply pow_incr; lra).
  rewrite pow1 in Q.
  assert (0.99 ^ n * 0.99 ^ (m - n) <= 0.99 ^ n * 1)
    by (apply Rmult_le_compat_l; assumption).
  lra.
Qed.

Lemma pow_099_950 : 110.09 * 0.99 ^ 950 < 0.01.
Proof.
  rewrite pow_099_ratio.
  assert (Hz : (11009 * 99 ^ Z.of_nat 950 < 100 ^ Z.of_nat 950)%Z)
    by (vm_compute; reflexivity).
  assert (Hp : (0 < 100 ^ Z.of_nat 950)%Z) by (vm_compute; reflexivity).
  apply IZR_lt in Hz. apply IZR_lt in Hp. rewrite mult_IZR in Hz.
  set (A := IZR (99 ^ Z.of_nat 950)) in *.
  set (B := IZR (100 ^ Z.of_nat 950)) in *.
  clearbody A B.
  apply Rmult_lt_reg_r with B; [exact Hp|].
  unfold Rdiv. rewrite !Rmult_assoc, Rinv_l by lra. lra.
Qed.

Lemma rising_pass_bound (voltage : R) (st : solver_state) :
  rising voltage st ->
  solver_guard st = true ->
  (num_iter st <= 950)%nat.
Proof.
  intros (_ & _ & _ & _ & E) G.
  destruct (le_lt_dec (num_iter st) 950) as [L|L]; [exact L|exfalso].
  destruct E as [_ E]; [lia|].
  apply solver_guard_true in G. destruct G as [G _].
  unfold ERROR_THRESHOLD in G.
  pose proof (pow_099_antitone 950 (num_iter st - 1) ltac:(lia)) as M.
  pose proof pow_099_950. lra.
Qed.

Lemma mux_drop_bound_at_start : mux_drop 0.1 <= 24 / 13.28.
Proof.
  unfold mux_drop.
  assert (A : 0 < 0.1 / I0 mux_diode + 1) by (simpl; lra).
  pose proof (ln_le_minus_1 _ A) as L.
  assert (B : 0.1 / I0 mux_diode + 1 - 1 <= 24) by (simpl; lra).
  unfold Rdiv at 1 3. simpl alpha. apply Rmult_le_compat_r; lra.
Qed.

Lemma mux_drop_positive (I : R) : 0 < I -> 0 < mux_drop I.
Proof.
  intros H. unfold mux_drop.
  apply Rmult_lt_0_compat; [|apply Rinv_0_lt_compat; simpl; lra].
  rewrite <- ln_1. apply ln_increasing; [lra|].
  assert (0 < I / I0 mux_diode); [|lra].
  apply Rdiv_lt_0_compat; [exact H|simpl; lra].
Qed.

(** At 3.7 V and above the first current computed is well above the
    starting guess. *)
Lemma first_current_on_sweep (v : R) :
  3.7 <= v -> 0.1 <= drive_current (v - mux_drop 0.1 - 0.1 * Rp).
Proof.
  intros H. pose proof mux_drop_bound_at_start as B.
  assert (V : 1 <= v - mux_drop 0.1 - 0.1 * Rp) by (unfold Rp; lra).
  destruct (Rlt_dec 2.3 (v - mux_drop 0.1 - 0.1 * Rp)) as [L|L].
  - rewrite drive_current_saturated by assumption. lra.
  - rewrite drive_current_below by lra. nra.
Qed.

Lemma solver_converges_at (voltage : R) (st0 : solver_state) :
  0.1 <= drive_current (voltage - mux_drop 0.1 - 0.1 * Rp) ->
  exists st prev,
    (forall fuel, (MAX_ITERATIONS <= fuel)%nat ->
                  solver_loop fuel voltage (solver_setup st0) = Some (Ok st))
    /\ st = next_state voltage prev
    /\ rising voltage prev
    /\ (num_iter prev <= 950)%nat
    /\ 0 <= error st < ERROR_THRESHOLD
    /\ solver_report st = SolutionConvergedIn (num_iter st).
Proof.
  intros HV.
  assert (HV0 : 0.1 + mux_drop 0.1 < voltage).
  { assert (0 < voltage - mux_drop 0.1 - 0.1 * Rp)
      by (apply drive_current_positive_inv; lra).
    unfold Rp in *. lra. }
  destruct (solver_at_voltage voltage st0 HV0)
    as (st & prev & L & N & G & Re & Gp & E).
  pose proof (reachable_rising voltage prev HV Re) as K.
  pose proof (rising_pass_bound voltage prev K Gp) as B.
  destruct (rising_step voltage prev K) as (_ & _ & _ & _ & Er).
  rewrite <- E in Er.
  assert (Nst : num_iter st = S (num_iter prev)) by (rewrite E; reflexivity).
  exists st, prev.
  destruct (report_after_loop st G N) as [[F _]|(_ & C & Rep)];
    [unfold MAX_ITERATIONS in F; lia|].
  split; [exact L|]. split; [exact E|]. split; [exact K|].
  split; [exact B|]. split; [|exact Rep]. split; [tauto|exact C].
Qed.

(** X15.  At any battery voltage whose first computed current is at least
    the starting guess of 0.1 A (every voltage from 3.7 V up is one), the
    solver converges: the loop ends normally after at most 951 passes with a
    relative error in [0, 0.01), the point is reported as converged, never
    as failed, and the final guess lies between 0.1 A and the last computed
    current, itself at most 11.109 A. *)
Theorem drive_solver_converges (voltage : R) (st0 : solver_state) :
  0.1 <= drive_current (voltage - mux_drop 0.1 - 0.1 * Rp) ->
  exists st,
    (forall fuel, (MAX_ITERATIONS <= fuel)%nat ->
                  solver_loop fuel voltage (solver_setup st0) = Some (Ok st))
    /\ (1 <= num_iter st <= 951)%nat
    /\ 0 <= error st < ERROR_THRESHOLD
    /\ solver_report st = SolutionConvergedIn (num_iter st)
    /\ 0.1 <= current_guess st <= current_actual st
    /\ current_actual st <= 11.109.
Proof.
  intros HV.
  destruct (solver_converges_at voltage st0 HV)
    as (st & prev & L & E & K & B & Er & Rep).
  destruct (rising_step voltage prev K) as (_ & _ & Gs & Ac & _).
  rewrite <- E in Gs, Ac.
  destruct K as (Hg & _).
  exists st. split; [exact L|]. split.
  - rewrite E. cbn [next_state num_iter]. lia.
  - split; [exact Er|]. split; [exact Rep|]. split; [|exact Ac].
    split; lra.
Qed.

Lemma drive_solver_converges_witness :
  exists st,
    solver_loop MAX_ITERATIONS 3.7 (solver_setup unbound) = Some (Ok st)
    /\ solver_report st = SolutionConvergedIn (num_iter st).
Proof.
  destruct (drive_solver_converges 3.7 unbound)
    as (st & L & _ & _ & Rep & _).
  - apply first_current_on_sweep. lra.
  - exists st. split; [apply L; apply le_n|exact Rep].
Defined.

(** ** The sweep, point by point *)

Lemma solve_point_converges (voltage : R) (st0 : solver_state) :
  0.1 <= drive_current (voltage - mux_drop 0.1 - 0.1 * Rp) ->
  exists st p,
    (forall fuel, (MAX_ITERATIONS <= fuel)%nat ->
                  solve_point fuel voltage st0 = Some (Ok (st, p)))
    /\ converged_record voltage p.
Proof.
  intros HV.
  destruct (solver_converges_at voltage st0 HV)
    as (st & prev & L & E & K & B & _ & Rep).
  destruct (rising_step voltage prev K) as (_ & _ & Gs & Ac & _).
  destruct K as (Hg & Hvd & _).
  exists st. eexists. split.
  - intros fuel Hf. unfold solve_point. rewrite (L fuel Hf).
    rewrite E. rewrite record_after_pass. cbn [bind]. reflexivity.
  - exists (num_iter st), (current_guess prev).
    cbn [printed diode_VFs drive_Vds drive_currents].
    rewrite <- E.
    split; [exact Rep|]. split; [rewrite E; cbn [next_state num_iter]; lia|].
    split; [exact Hg|]. split; [reflexivity|]. split; [reflexivity|].
    split; [rewrite E; reflexivity|].
    split; [apply mux_drop_positive; lra|]. split; [exact Hvd|].
    rewrite E. lra.
Qed.

(** X16.  Over any list of battery voltages whose first computed current
    is at least 0.1 A (the 100 input voltages are such a list) the sweep
    raises nothing and records one point per voltage, each reported as
    converged within 951 passes.  A point holds the diode drop and the
    drain voltage computed from the guess [g] the last pass started with,
    both positive and tied by [Vd = v - VF - g*Rp], while the current
    recorded is the guess after that pass,
    [g + 0.01*(drive_current Vd - g)], between [g] and 11.109 A. *)
Theorem drive_sweep_converges (voltages : list R) (st0 : solver_state) :
  Forall (fun v => 0.1 <= drive_current (v - mux_drop 0.1 - 0.1 * Rp))
         voltages ->
  exists ps,
    (forall fuel, (MAX_ITERATIONS <= fuel)%nat ->
                  drive_sweep fuel voltages st0 = Some (Ok ps))
    /\ Forall2 converged_record voltages ps.
Proof.
  intros H. revert st0. induction H as [|v rest Hv _ IH]; intros st0.
  - exists []. split; [intros; reflexivity|constructor].
  - destruct (solve_point_converges v st0 Hv) as (st & p & L & C).
    destruct (IH st) as (ps & Hps & F).
    exists (p :: ps). split.
    + intros fuel Hf. cbn [drive_sweep].
      rewrite (L fuel Hf), (Hps fuel Hf). reflexivity.
    + now constructor.
Qed.

Lemma drive_sweep_converges_witness :
  exists ps,
    drive_sweep MAX_ITERATIONS input_voltages unbound = Some (Ok ps)
    /\ Forall2 converged_record input_voltages ps.
Proof.
  destruct (drive_sweep_converges input_voltages unbound) as (ps & L & F).
  - apply Forall_forall. intros v Hv.
    apply first_current_on_sweep. now apply input_voltages_range.
  - exists ps. split; [apply L; apply le_n|exact F].
Defined.

(** ** Below the first drain voltage *)

(** X17.  At a battery voltage below [0.1 + mux_drop 0.1] (about 0.342 V)
    the first drain voltage is negative, and the solver makes exactly one
    pass: it finds a negative current and a negative error, pulls the guess
    below 0.1 A, and reports convergence in 1 iteration. *)
Theorem drive_solver_single_pass (voltage : R) (st0 : solver_state) :
  voltage < 0.1 + mux_drop 0.1 ->
  exists st,
    (forall fuel, (1 <= fuel)%nat ->
                  solver_loop fuel voltage (solver_setup st0) = Some (Ok st))
    /\ num_iter st = 1%nat
    /\ current_actual st < 0
    /\ error st < 0
    /\ current_guess st < 0.1
    /\ solver_report st = SolutionConvergedIn 1
    /\ exists vd, Vd st = Some vd /\ vd < 0.
Proof.
  intros HV.
  set (vd := voltage - mux_drop 0.1 - 0.1 * Rp).
  assert (Hvd : vd < 0) by (unfold vd, Rp; lra).
  pose proof (drive_current_negative vd Hvd) as Ha.
  assert (G : solver_guard (solver_setup st0) = true).
  { apply solver_guard_true. cbn [solver_setup error num_iter].
    unfold ERROR_THRESHOLD, MAX_ITERATIONS. split; [lra|lia]. }
  assert (B : solver_body voltage (solver_setup st0)
              = Ok (next_state voltage (solver_setup st0))).
  { apply solver_body_ok; cbn [solver_setup current_guess];
      [simpl; lra|fold vd; lra]. }
  assert (Herr : error (next_state voltage (solver_setup st0)) < 0).
  { cbn [next_state solver_setup error current_guess]. fold vd.
    apply relative_error_negative; lra. }
  assert (G' : solver_guard (next_state voltage (solver_setup st0)) = false).
  { apply solver_guard_false. left. unfold ERROR_THRESHOLD. lra. }
  exists (next_state voltage (solver_setup st0)).
  split; [|split; [reflexivity|split; [exact Ha|split; [exact Herr|]]]].
  - intros [|fuel] Hf; [lia|].
    rewrite (solver_loop_pass fuel voltage _ _ G B).
    now apply solver_loop_exit.
  - split; [|split; [reflexivity|]].
    + cbn [next_state solver_setup current_guess]. fold vd.
      unfold learn_rate. lra.
    + exists vd. split; [reflexivity|exact Hvd].
Qed.

Lemma drive_solver_single_pass_witness :
  exists st,
    solver_loop 1 0 (solver_setup unbound) = Some (Ok st)
    /\ solver_report st = SolutionConvergedIn 1.
Proof.
  destruct (drive_solver_single_pass 0 unbound)
    as (st & L & _ & _ & _ & _ & Rep & _).
  - assert (0 <= mux_drop 0.1) by (apply mux_drop_nonneg; lra). lra.
  - exists st. split; [apply L; apply le_n|exact Rep].
Defined.

(** ** The quadratic region held throughout *)

Lemma mux_drop_at_ceiling : mux_drop 11.109 < 0.601.
Proof.
  unfold mux_drop. simpl I0. simpl alpha.
  assert (P : 0 < 11.109 / 0.004197 + 1) by lra.
  assert (L : ln (11.109 / 0.004197 + 1) < 7.98128); [|lra].
  apply exp_lt_inv. rewrite exp_ln by exact P.
  replace 7.98128 with (2 ^ 10 * (7.98128 / 1024)) by (simpl; lra).
  apply Rlt_le_trans with (fx (fx_square_down 10 1007794218750000000)).
  - replace (fx_square_down 10 1007794218750000000)
      with 2836530020837536394693%Z by (vm_compute; reflexivity).
    rewrite fx_value. lra.
  - apply fx_square_down_sound; [lia|].
    apply Rle_trans with (1 + 7.98128 / 1024).
    + rewrite fx_value. lra.
    + apply exp_ineq1_le.
Qed.

Lemma pow_099_range (n : nat) : 0 <= 0.99 ^ n <= 1.
Proof.
  split; [apply pow_le; lra|].
  rewrite <- (pow1 n). apply pow_incr. lra.
Qed.

Lemma pow_099_457 : 0.11109 <= 11.009 * 0.99 ^ 457.
Proof.
  rewrite pow_099_ratio.
  assert (Hz : (11109 * 100 ^ Z.of_nat 457 <= 1100900 * 99 ^ Z.of_nat 457)%Z)
    by (vm_compute; discriminate).
  assert (Hp : (0 < 100 ^ Z.of_nat 457)%Z) by (vm_compute; reflexivity).
  apply IZR_le in Hz. apply IZR_lt in Hp. rewrite !mult_IZR in Hz.
  set (A := IZR (99 ^ Z.of_nat 457)) in *.
  set (B := IZR (100 ^ Z.of_nat 457)) in *.
  clearbody A B.
  apply Rmult_le_reg_r with B; [exact Hp|].
  unfold Rdiv. rewrite !Rmult_assoc, Rinv_l by lra. lra.
Qed.

Lemma pow_099_458 : 11.009 * 0.99 ^ 458 < 0.11109.
Proof.
  rewrite pow_099_ratio.
  assert (Hz : (1100900 * 99 ^ Z.of_nat 458 < 11109 * 100 ^ Z.of_nat 458)%Z)
    by (vm_compute; reflexivity).
  assert (Hp : (0 < 100 ^ Z.of_nat 458)%Z) by (vm_compute; reflexivity).
  apply IZR_lt in Hz. apply IZR_lt in Hp. rewrite !mult_IZR in Hz.
  set (A := IZR (99 ^ Z.of_nat 458)) in *.
  set (B := IZR (100 ^ Z.of_nat 458)) in *.
  clearbody A B.
  apply Rmult_lt_reg_r with B; [exact Hp|].
  unfold Rdiv. rewrite !Rmult_assoc, Rinv_l by lra. lra.
Qed.

Lemma saturated_setup (voltage : R) (st0 : solver_state) :
  saturated voltage (solver_setup st0).
Proof.
  unfold saturated. cbn [solver_setup current_guess num_iter pow].
  split; [lra|]. intros H. lia.
Qed.

Lemma saturated_step (voltage : R) (st : solver_state) :
  14.01 <= voltage ->
  saturated voltage st ->
  solver_body voltage st = Ok (next_state voltage st)
  /\ saturated voltage (next_state voltage st).
Proof.
  intros HV [Eg _].
  pose proof (pow_099_range (num_iter st)) as P.
  assert (Hg : 0.1 <= current_guess st <= 11.109) by lra.
  assert (M : mux_drop (current_guess st) <= mux_drop 11.109)
    by (apply mux_drop_monotone; lra).
  pose proof mux_drop_at_ceiling as C.
  assert (Hvd : 2.3 < voltage - mux_drop (current_guess st)
                      - current_guess st * Rp)
    by (unfold Rp; lra).
  pose proof (drive_current_saturated _ Hvd) as Ea.
  split.
  - apply solver_body_ok; [simpl; lra|rewrite Ea; lra].
  - unfold saturated.
    cbn [next_state current_guess current_actual num_iter error].
    rewrite Ea. split.
    + rewrite Eg. unfold learn_rate. cbn [pow]. lra.
    + intros _. split; [reflexivity|].
      replace (S (num_iter st) - 1)%nat with (num_iter st) by lia.
      rewrite Rabs_pos_eq by lra. rewrite Eg. f_equal. lra.
Qed.

Lemma reachable_saturated (voltage : R) (st : solver_state) :
  14.01 <= voltage ->
  reachable voltage st ->
  saturated voltage st.
Proof.
  intros HV H. induction H as [st0|st st' Re IH G B].
  - apply saturated_setup.
  - destruct (saturated_step voltage st HV IH) as (E & K).
    rewrite E in B. injection B as <-. exact K.
Qed.

(** X18.  From 14.01 V up the drive transistor never leaves its quadratic
    region: every pass computes 11.109 A, the guess follows
    [11.109 - 11.009*0.99^n], and the solver stops after exactly 459 passes,
    whatever the voltage, with the same recorded current. *)
Theorem drive_solver_saturated (voltage : R) (st0 : solver_state) :
  14.01 <= voltage ->
  exists st,
    (forall fuel, (MAX_ITERATIONS <= fuel)%nat ->
                  solver_loop fuel voltage (solver_setup st0) = Some (Ok st))
    /\ num_iter st = 459%nat
    /\ current_actual st = 11.109
    /\ current_guess st = 11.109 - 11.009 * 0.99 ^ 459
    /\ error st = 11.009 * 0.99 ^ 458 / 11.109
    /\ solver_report st = SolutionConvergedIn 459.
Proof.
  intros HV.
  assert (HV0 : 0.1 + mux_drop 0.1 < voltage)
    by (apply sweep_starts_above_ground; lra).
  destruct (solver_at_voltage voltage st0 HV0)
    as (st & prev & L & N & G & Re & Gp & E).
  pose proof (reachable_saturated voltage prev HV Re) as Kp.
  destruct (saturated_step voltage prev HV Kp) as (_ & K).
  rewrite <- E in K. destruct K as [Eg Ee].
  assert (Nst : num_iter st = S (num_iter prev)) by (rewrite E; reflexivity).
  destruct Ee as [Ea Ee]; [lia|].
  (* the guard let the last pass run: at most 458 passes before it *)
  assert (Bp : (num_iter prev <= 458)%nat).
  { destruct (le_lt_dec (num_iter prev) 458) as [B|B]; [exact B|exfalso].
    destruct Kp as [_ Kp]. destruct Kp as [_ Kp]; [lia|].
    apply solver_guard_true in Gp. destruct Gp as [Gp _].
    unfold ERROR_THRESHOLD in Gp. rewrite Kp in Gp.
    pose proof (pow_099_antitone 458 (num_iter prev - 1) ltac:(lia)) as M.
    pose proof pow_099_458 as Q.
    assert (11.009 * 0.99 ^ (num_iter prev - 1) / 11.109 < 0.01); [|lra].
    apply Rmult_lt_reg_r with 11.109; [lra|].
    unfold Rdiv. rewrite Rmult_assoc, Rinv_l by lra. lra. }
  (* the guard stopped the loop short of 1000: the error is below 0.01 *)
  assert (Bs : (458 <= num_iter prev)%nat).
  { destruct (le_lt_dec 458 (num_iter prev)) as [B|B]; [exact B|exfalso].
    apply solver_guard_false in G.
    destruct G as [G|G]; [|unfold MAX_ITERATIONS in G; lia].
    unfold ERROR_THRESHOLD in G. rewrite Ee in G.
    replace (num_iter st - 1)%nat with (num_iter prev) in G by lia.
    pose proof (pow_099_antitone (num_iter prev) 457 ltac:(lia)) as M.
    pose proof pow_099_457 as Q.
    assert (0.01 <= 11.009 * 0.99 ^ num_iter prev / 11.109); [|lra].
    apply Rmult_le_reg_r with 11.109; [lra|].
    unfold Rdiv. rewrite Rmult_assoc, Rinv_l by lra. lra. }
  assert (N459 : num_iter st = 459%nat) by lia.
  exists st. split; [exact L|]. split; [exact N459|].
  split; [exact Ea|]. rewrite N459 in Eg, Ee.
  split; [exact Eg|]. split; [exact Ee|].
  unfold solver_report. rewrite N459. reflexivity.
Qed.

Lemma drive_solver_saturated_witness :
  exists st,
    solver_loop MAX_ITERATIONS 14.8 (solver_setup unbound) = Some (Ok st)
    /\ num_iter st = 459%nat.
Proof.
  destruct (drive_solver_saturated 14.8 unbound)
    as (st & L & N & _); [lra|].
  exists st. split; [apply L; apply le_n|exact N].
Defined.

(** * Further properties: the transistor model as a function of the gate *)

Lemma Rmax_abs_form (x y : R) : Rmax x y = (x + y + Rabs (x - y)) / 2.
Proof.
  unfold Rmax, Rabs. destruct (Rle_dec x y), (Rcase_abs (x - y)); lra.
Qed.

(** With the drain not below the source, the three regions glue into
    [0.5*kn*(max(Vov,0)^2 - max(Vov - Vds,0)^2)]. *)
Lemma drain_current_gate_form (self : NMOS) (Vg Vd Vs : R) :
  0 <= Vd - Vs ->
  calc_drain_current self Vg Vd Vs
  = 0.5 * kn self
    * (Rmax (Vg - Vs - Vt self) 0 * Rmax (Vg - Vs - Vt self) 0
       - Rmax (Vg - Vs - Vt self - (Vd - Vs)) 0
         * Rmax (Vg - Vs - Vt self - (Vd - Vs)) 0).
Proof.
  intros Hd. unfold calc_drain_current.
  destruct (Rlt_dec (Vg - Vs - Vt self) 0) as [C|C].
  - rewrite !Rmax_right by lra. ring.
  - destruct (Rlt_dec (Vg - Vs - Vt self) (Vd - Vs)) as [Q|Q].
    + rewrite Rmax_left by lra. rewrite Rmax_right by lra. ring.
    + rewrite !Rmax_left by lra. decimals. field.
Qed.

(** X19.  The drain current has no jump in the drain voltage, and with the
    drain not below the source it has none in the gate voltage either: the
    regions meet at the threshold and at [Vov = Vds]. *)
Theorem drain_current_no_jump (self : NMOS) (Vg Vd Vs : R) :
  continuity_pt (fun d => calc_drain_current self Vg d Vs) Vd
  /\ (0 <= Vd - Vs ->
      continuity_pt (fun g => calc_drain_current self g Vd Vs) Vg).
Proof.
  split; [apply drain_current_continuous|].
  intros Hd.
  apply continuity_pt_locally_ext
    with (a := 1)
         (f := fun g =>
                 0.5 * kn self
                 * (((g - Vs - Vt self + 0 + Rabs (g - Vs - Vt self - 0)) / 2)
                    * ((g - Vs - Vt self + 0 + Rabs (g - Vs - Vt self - 0)) / 2)
                    - ((g - Vs - Vt self - (Vd - Vs) + 0
                        + Rabs (g - Vs - Vt self - (Vd - Vs) - 0)) / 2)
                      * ((g - Vs - Vt self - (Vd - Vs) + 0
                          + Rabs (g - Vs - Vt self - (Vd - Vs) - 0)) / 2)));
    [lra| |reg].
  intros y _. rewrite drain_current_gate_form by exact Hd.
  now rewrite !Rmax_abs_form.
Qed.

(** X20.  With the drain below the source and [kn <> 0] the model does
    jump at the threshold: just below [Vg = Vs + Vt] the current is 0, at
    the threshold it is [-0.5*kn*(Vd - Vs)^2]. *)
Theorem drain_current_jump_at_threshold (self : NMOS) (Vd Vs : R) :
  kn self <> 0 -> Vd - Vs < 0 ->
  calc_drain_current self (Vs + Vt self) Vd Vs
  = - (0.5 * kn self * (Vd - Vs) ^ 2)
  /\ (forall Vg, Vg < Vs + Vt self -> calc_drain_current self Vg Vd Vs = 0)
  /\ ~ continuity_pt (fun g => calc_drain_current self g Vd Vs)
                     (Vs + Vt self).
Proof.
  intros Hk Hd.
  assert (At : calc_drain_current self (Vs + Vt self) Vd Vs
               = - (0.5 * kn self * (Vd - Vs) ^ 2)).
  { rewrite drain_current_complementary by lra.
    replace (Vs + Vt self - Vs - Vt self) with 0 by ring.
    decimals. field. }
  assert (Below : forall Vg, Vg < Vs + Vt self ->
                             calc_drain_current self Vg Vd Vs = 0).
  { intros Vg H. apply drain_current_cutoff. lra. }
  split; [exact At|]. split; [exact Below|].
  intros C.
  assert (J : 0 < Rabs (0.5 * kn self * (Vd - Vs) ^ 2)).
  { apply Rabs_pos_lt. intros Z.
    apply Rmult_integral in Z. destruct Z as [Z|Z].
    - apply Rmult_integral in Z. destruct Z as [Z|Z]; [lra|contradiction].
    - assert (Vd - Vs = 0) by nra. lra. }
  destruct (C _ J) as (delta & Hdelta & H).
  specialize (H (Vs + Vt self - delta / 2)).
  cbn in H. unfold Rdist in H.
  rewrite At, Below in H by lra.
  replace (0 - - (0.5 * kn self * (Vd - Vs) ^ 2))
    with (0.5 * kn self * (Vd - Vs) ^ 2) in H by ring.
  apply (Rlt_irrefl (Rabs (0.5 * kn self * (Vd - Vs) ^ 2))).
  apply H. split.
  - split; [exact I|lra].
  - rewrite Rabs_left by lra. lra.
Qed.

Lemma drain_current_jump_at_threshold_witness :
  ~ continuity_pt (fun g => calc_drain_current drive_nmos g (-1) 0)
                  (0 + Vt drive_nmos).
Proof.
  apply (drain_current_jump_at_threshold drive_nmos (-1) 0); simpl; lra.
Defined.

(** * Further properties: the solver above ground, the two sweeps' grids *)

(** X21.  At every battery voltage above [0.1 + mux_drop 0.1], not only on
    the sweep, the solver raises nothing and ends within 1000 passes; the
    last pass found a positive drain voltage and a positive current, so the
    error it computed is not negative, and the guess stayed at or above
    0.004 A, clear of the singularity of the logarithm at [-I0]. *)
Theorem drive_solver_above_ground (voltage : R) (st0 : solver_state) :
  0.1 + mux_drop 0.1 < voltage ->
  exists st,
    (forall fuel, (MAX_ITERATIONS <= fuel)%nat ->
                  solver_loop fuel voltage (solver_setup st0) = Some (Ok st))
    /\ (1 <= num_iter st <= MAX_ITERATIONS)%nat
    /\ 0 < current_actual st
    /\ 0 <= error st
    /\ 0.004 <= current_guess st
    /\ exists vd vf, Vd st = Some vd /\ diode_VF st = Some vf
                     /\ 0 < vd /\ 0 < vf.
Proof.
  intros HV.
  destruct (solver_at_voltage voltage st0 HV)
    as (st & prev & L & N & G & Re & Gp & E).
  pose proof (reachable_above_ground voltage prev HV Re) as Inv.
  destruct (body_keeps_above_ground voltage prev HV Inv) as (_ & Ha & K).
  rewrite <- E in Ha, K. destruct K as [Kg _]. destruct Inv as [Ig Ih].
  exists st. split; [exact L|]. split.
  { split; [rewrite E; cbn [next_state num_iter]; lia|exact N]. }
  split; [exact Ha|]. split.
  { rewrite E in Ha |- *. cbn [next_state error current_actual] in Ha |- *.
    apply Rmult_le_pos; [apply Rabs_pos|].
    left. now apply Rinv_0_lt_compat. }
  split; [exact Kg|].
  exists (voltage - mux_drop (current_guess prev) - current_guess prev * Rp),
         (mux_drop (current_guess prev)).
  rewrite E. cbn [next_state Vd diode_VF].
  split; [reflexivity|]. split; [reflexivity|]. split.
  - unfold Rp. lra.
  - apply mux_drop_positive. lra.
Qed.

Lemma drive_solver_above_ground_witness :
  exists st,
    solver_loop MAX_ITERATIONS 1 (solver_setup unbound) = Some (Ok st)
    /\ 0 < current_actual st.
Proof.
  destruct (drive_solver_above_ground 1 unbound) as (st & L & _ & A & _).
  - pose proof mux_drop_at_ceiling as C.
    assert (mux_drop 0.1 <= mux_drop 11.109)
      by (apply mux_drop_monotone; lra).
    lra.
  - exists st. split; [apply L; apply le_n|exact A].
Defined.

(** ** The continuity sweep *)

Lemma cont_voltage_script (voltage : R) :
  exists v, cont_voltage cont_nmos Rcont voltage = Ok v /\ 0 < v <= 3.3.
Proof.
  destruct (cont_voltage_total cont_nmos Rcont voltage) as [v E];
    [simpl; lra|unfold Rcont; lra|].
  exists v. split; [exact E|].
  destruct (Rle_or_lt (cont_Vov cont_nmos voltage)
                      (cont_Vcont cont_nmos Rcont voltage)) as [L|Q].
  - rewrite cont_voltage_linear_value in E by exact L. injection E as <-.
    apply cont_linear_facts; [simpl; lra|unfold Rcont; lra|exact L].
  - destruct (cont_quadratic_facts cont_nmos Rcont) with (voltage := voltage)
      as (w & Ew & [P _] & U & _); [simpl; lra|unfold Rcont; lra|exact Q|].
    rewrite Ew in E. injection E as <-. lra.
Qed.

(** X22.  The continuity sweep raises nothing on any list of battery
    voltages: it stores one value per voltage, each in (0, 3.3], and over
    voltages in non-decreasing order the stored values are in
    non-increasing order. *)
Theorem cont_sweep_spec (voltages : list R) :
  exists vs,
    cont_sweep voltages = Ok vs
    /\ Forall2 (fun V v => cont_voltage cont_nmos Rcont V = Ok v
                           /\ 0 < v <= 3.3) voltages vs
    /\ (StronglySorted Rle voltages -> StronglySorted Rge vs).
Proof.
  induction voltages as [|V rest (vs & E & F & S)].
  - exists []. repeat split; constructor.
  - destruct (cont_voltage_script V) as (v & Ev & B).
    exists (v :: vs). split; [|split].
    + cbn [cont_sweep]. rewrite Ev. cbn [bind]. rewrite E. reflexivity.
    + constructor; [now split|exact F].
    + intros HS. apply StronglySorted_inv in HS. destruct HS as [HS HF].
      constructor; [now apply S|].
      clear S E HS. induction F as [|V' v' rest' vs' [Ev' _] F IH];
        constructor.
      * apply Forall_inv in HF.
        destruct (cont_voltage_antitone cont_nmos Rcont) with (V1 := V) (V2 := V')
          as (w1 & w2 & E1 & E2 & L);
          [simpl; lra|unfold Rcont; lra|exact HF|].
        rewrite Ev in E1. rewrite Ev' in E2.
        injection E1 as <-. injection E2 as <-. lra.
      * apply IH. now apply Forall_inv_tail in HF.
Qed.

(** ** np.linspace *)

Lemma seq_sorted (a n : nat) : StronglySorted lt (seq a n).
Proof.
  revert a. induction n as [|n IH]; intros a; cbn [seq]; constructor.
  - apply IH.
  - apply Forall_forall. intros x Hx. apply in_seq in Hx. lia.
Qed.

(** X23.  The grid [linspace start stop num] has [num] points, the [i]-th
    being [start + i*(stop - start)/(num - 1)]: it starts at [start], ends
    exactly at [stop] when there are at least two points, and for
    [start < stop] it is strictly increasing and stays within
    [start, stop]. *)
Theorem linspace_grid (start stop : R) (num : nat) :
  length (linspace start stop num) = num
  /\ (forall i, (i < num)%nat ->
                nth_error (linspace start stop num) i
                = Some (start + INR i * ((stop - start) / INR (num - 1))))
  /\ ((1 <= num)%nat -> nth_error (linspace start stop num) 0 = Some start)
  /\ ((2 <= num)%nat ->
      nth_error (linspace start stop num) (num - 1) = Some stop)
  /\ (start < stop ->
      StronglySorted Rlt (linspace start stop num)
      /\ forall v, In v (linspace start stop num) -> start <= v <= stop).
Proof.
  assert (Nth : forall i, (i < num)%nat ->
                          nth_error (linspace start stop num) i
                          = Some (start + INR i
                                          * ((stop - start) / INR (num - 1)))).
  { intros i Hi. unfold linspace.
    rewrite nth_error_map, nth_error_nth' with (d := 0%nat)
      by (rewrite length_seq; exact Hi).
    rewrite seq_nth by exact Hi. reflexivity. }
  split; [unfold linspace; now rewrite length_map, length_seq|].
  split; [exact Nth|]. split; [|split].
  - intros H. rewrite Nth by lia. cbn [INR]. f_equal. ring.
  - intros H. rewrite Nth by lia. f_equal.
    assert (0 < INR (num - 1)) by (apply lt_0_INR; lia).
    field. lra.
  - intros H. split; [|intros v Hv; apply (linspace_range start stop num); lra || assumption].
    destruct (le_lt_dec num 1) as [Small|Big].
    + unfold linspace. destruct num as [|[|n]]; [constructor| |lia].
      cbn [seq map]. repeat constructor.
    + assert (Hd : 0 < INR (num - 1)) by (apply lt_0_INR; lia).
      assert (Hq : 0 < (stop - start) / INR (num - 1))
        by (apply Rdiv_lt_0_compat; lra).
      unfold linspace. generalize (seq_sorted 0 num).
      generalize (seq 0 num). intros l HS.
      induction HS as [|i l HS IH HF]; cbn [map]; constructor.
      * exact IH.
      * apply Forall_map. revert HF. apply Forall_impl.
        intros j Hj. apply lt_INR in Hj.
        apply Rplus_lt_compat_l, Rmult_lt_compat_r; assumption.
Qed.

(** ** Where the two continuity branches meet *)

(** X24.  With [kn > 0] and a positive pull-up, at a battery voltage
    exactly on the boundary [Vov = Vcont] the quadratic branch, had it run,
    would have stored the same number as the else branch that does run: the
    lower root there is [Vcont]. *)
Theorem continuity_branches_meet (nmos : NMOS) (Rpull voltage : R) :
  0 < kn nmos -> 0 < Rpull ->
  cont_Vov nmos voltage = cont_Vcont nmos Rpull voltage ->
  cont_voltage nmos Rpull voltage = Ok (cont_Vcont nmos Rpull voltage)
  /\ cont_quadratic nmos Rpull voltage = Ok (cont_Vcont nmos Rpull voltage).
Proof.
  intros Hk Hr H. split.
  - apply cont_voltage_linear_value. rewrite H. apply Rle_refl.
  - apply cont_root_at_boundary; try assumption.
    destruct (Rlt_dec (cont_Vov nmos voltage) 0) as [N|N]; [exfalso|lra].
    rewrite cont_Vcont_cutoff in H by assumption. lra.
Qed.

Lemma continuity_branches_meet_witness :
  cont_quadratic cont_nmos Rcont (1.5 + (sqrt 10495 - 1) / 1590)
  = Ok (cont_Vcont cont_nmos Rcont (1.5 + (sqrt 10495 - 1) / 1590)).
Proof.
  apply (continuity_branches_meet
           cont_nmos Rcont (1.5 + (sqrt 10495 - 1) / 1590));
    [simpl; lra|unfold Rcont; lra|exact cont_boundary_voltage].
Defined.
